(** * qftool: the QuickFeather SPI flash tool, embedded in Rocq

    A shallow embedding of [qftool.go]: the TinyFPGA-bootloader command
    framer ([spi]), the status poll ([await]), the flash reader and
    writer ([Read], [Write]), the session set-up ([reset], [NewQF]), the
    metadata codec ([readMeta], [writeMeta]), the CRC check ([validate])
    and the command-line driver ([main]).

    Conventions.
    - Go's [int] is taken to be the 64-bit two's complement integer of the
      platforms the tool is built for; it is a [Z] and every addition and
      subtraction wraps explicitly ([Int.add], [Int.sub]).
    - A byte is a [Z] in [0, 256).
    - The serial port, the clock, the file system and the CRC library are
      outside the program; they are the fields of the class [Env].
    - Every function that talks to the device is a computation [M A]:
      it takes the state of the serial port and returns the new state, the
      list of [spi] exchanges it performed, in order, and its result.
    - Console output ([fmt.Print], [log.Print], the progress ticker and
      its [tics]/[sofar] counters) is not modelled, and the [ticker]
      argument of [Read] and [Write], which only switches that output on,
      is left out. *)

From Stdlib Require Import Bool String ZArith List Lia.
Import ListNotations.
Open Scope Z_scope.

(** ** Machine integers *)

Module Int.

Definition min_int : Z := - 2 ^ 63.
Definition max_int : Z := 2 ^ 63 - 1.

(** Two's complement reduction of a mathematical integer to [int]. *)
Definition wrap (z : Z) : Z := (z + 2 ^ 63) mod 2 ^ 64 - 2 ^ 63.

Definition add (a b : Z) : Z := wrap (a + b).
Definition sub (a b : Z) : Z := wrap (a - b).

(** The conversions [uint(x)], [uint32(x)] and [byte(x)]. *)
Definition uint (z : Z) : Z := z mod 2 ^ 64.
Definition uint32 (z : Z) : Z := z mod 2 ^ 32.
Definition byte (z : Z) : Z := z mod 256.

Definition in_range (z : Z) : Prop := min_int <= z <= max_int.

End Int.

(** [len(s)] of a slice, as an [int]. *)
Definition len {A : Type} (l : list A) : Z := Z.of_nat (length l).

(** [s[lo:hi]] of a slice (callers keep [0 <= lo <= hi <= len s]). *)
Definition slice {A : Type} (l : list A) (lo hi : Z) : list A :=
  firstn (Z.to_nat (hi - lo)) (skipn (Z.to_nat lo) l).

(** [for i := 0; i < count; i++ { s[start+i] = v }], as one pass over
    the slice (the callers keep [start + count <= len s]). *)
Fixpoint fill {A : Type} (l : list A) (start count : nat) (v : A) : list A :=
  match l with
  | [] => []
  | x :: tl =>
    match start with
    | S start' => x :: fill tl start' count v
    | O =>
      match count with
      | O => l
      | S count' => v :: fill tl O count' v
      end
    end
  end.

(** [copy(dst, src)]: the first [min (len dst) (len src)] elements. *)
Definition copy {A : Type} (dst src : list A) : list A :=
  firstn (length dst) src ++ skipn (length src) dst.

(** ** Constants and data types of the tool *)

Definition romSize : Z := 2 * 1024 * 1024.

Definition PresentWritten : Z := 0x03.
Definition PresentEmpty : Z := 0xff.

Definition TypeM4 : Z := 1.
Definition TypeFFE : Z := 2.
Definition TypeFPGA : Z := 3.
Definition TypeFS : Z := 4.

Definition SubTypeBoot : Z := 1.
Definition SubTypeApp : Z := 2.
Definition SubTypeOTA : Z := 3.
Definition SubTypeFSFat : Z := 0x20.

(** [MetaData]: the twelve-byte descriptor of a section. *)
Record MetaData : Type := mkMetaData {
  CRC : Z;       (* uint32 *)
  Size : Z;      (* uint32 *)
  Written : Z;   (* Present, uint8 *)
  Image : Z;     (* Type, uint8 *)
  Purpose : Z;   (* SubType, uint8 *)
  Reserved : Z   (* uint8 *)
}.

(** [Section] of the source ([Section] is a Rocq keyword). *)
Record Sect : Type := mkSect {
  name : string;
  base : Z;
  limit : Z;
  meta : Z;
  written : Z;
  image : Z;
  purpose : Z
}.

(** [sections] holds the layout map for the flash. *)
Definition sections : list Sect :=
  [ mkSect "bootloader" 0x00000 0x10000 0x1f000 0 TypeM4 SubTypeBoot;
    mkSect "bootfpga" 0x20000 0x40000 0x10000 0 TypeFPGA SubTypeBoot;
    mkSect "appfpga" 0x40000 0x60000 0x11000 0 TypeFPGA SubTypeApp;
    mkSect "appffe" 0x60000 0x80000 0x12000 0 TypeFFE SubTypeApp;
    mkSect "app" 0x80000 0xee000 0x13000 0 TypeM4 SubTypeApp ].

(** The command-line flags, with the defaults of the source. *)
Record Flags : Type := mkFlags {
  tty : string;
  latency : Z;       (* time.Duration, nanoseconds *)
  rd : string;
  wr : string;
  protect : Z;
  skip : Z;
  debug : bool;
  progress : bool;
  reset_flag : bool; (* --reset *)
  layout : bool;
  check : bool;
  disable : bool;
  sect : string;
  addrArg : Z;
  limitArg : Z
}.

Definition second : Z := 1000000000.

Definition default_flags : Flags :=
  mkFlags "/dev/serial/by-id/usb-1d50_6140-if00" (1 * second) "" "" 0x40000 0
          false true false false false false "" 0x80000 romSize.

(** ** Errors and results *)

(** One constructor per error the source builds. *)
Inductive error : Type :=
| ErrProtocolLimit                  (* "protocol limited to 16 byte payloads" *)
| ErrTermWrite                      (* "failed to write enough ..." *)
| ErrTermRead (consumed : Z)        (* "failed to read IDs [just %d bytes]" *)
| ErrTimedOut
| ErrReadStatus (e : error)         (* "failed to read status: %v" *)
| ErrWriteEnableFailed
| ErrReadOutside                    (* "data read request outside [0,romSize)" *)
| ErrUnaligned (address : Z)        (* "address is not sector aligned" *)
| ErrWriteOutside                   (* "data write request outside [0,romSize)" *)
| ErrEraseEnable (address : Z) (e : error) (* "sector erase at address=..." *)
| ErrEraseFailed (address : Z) (e : error) (* "sector erase failed for address=..." *)
| ErrSectorErase (e : error)        (* "sector erase error: %v" *)
| ErrProgramEnable (address : Z)    (* "write enable for programming failed" *)
| ErrEnableReset
| ErrResetDevice
| ErrMID (b0 : Z)                   (* "got MID=... expected MID=0xC8" *)
| ErrDID (b1 b2 : Z)                (* "got DID=... expect 0x40,0x15" *)
| ErrOpen                           (* "unable to open serial port" *)
| ErrInvalidSize (nm : string) (size max : Z)
| ErrFailedRead (nm : string) (size : Z) (e : error)
| ErrCrcMismatch (nm : string) (got want : Z)
| ErrFuel.                          (* a loop of the model ran out of fuel *)

(** The ways the process ends early: [os.Exit(0)] and each [log.Fatal]. *)
Inductive exit : Type :=
| ExitOK
| FatalReadMeta (nm : string) (e : error)
| FatalDecodeMeta (nm : string)
| FatalMetaLength (nm : string) (n : Z)
| FatalWriteMeta (nm : string) (e : error)
| FatalNoSection (nm : string)
| FatalNotQuickFeather (e : error)
| FatalCheckNeedsSection
| FatalCheckFailed (nm : string) (e : error)
| FatalProtectedSection
| FatalAddrLimit (addr lim : Z)
| FatalLimitRom (lim : Z)
| FatalRead (e : error)
| FatalWriteFile
| FatalReadFile (nm : string)
| FatalSkip
| FatalBeyondLimit (lim over : Z)
| FatalWriteProtection (prot addr : Z)
| FatalWriteData (e : error)
| GoPanic.                          (* a run-time panic *)

Inductive res (A : Type) : Type :=
| Ok (a : A)
| Err (e : error)
| Exit (x : exit).
Arguments Ok {A} a.
Arguments Err {A} e.
Arguments Exit {A} x.

(** One [spi] exchange: the command bytes, the number of reply bytes asked
    for, and the reply ([None] when [spi] returned an error). *)
Record Event : Type := mkEvent {
  ev_cmds : list Z;
  ev_expect : Z;
  ev_reply : option (list Z)
}.

Definition reply_of {A : Type} (r : res A) : option A :=
  match r with Ok a => Some a | _ => None end.

(** ** The world outside the program *)

(** What [term.Read] hands back for a non-empty buffer: either no byte
    together with an error, or at least one byte (an error that comes with
    bytes is ignored by [spi]). *)
Inductive chunk : Type :=
| RdFail
| RdSome (b : Z) (bs : list Z).

Class Env : Type := {
  (** the state of the serial port, [*term.Term] *)
  T : Type;
  term_Open : string -> option T;
  (** [Write]: the new state, and whether [err == nil] *)
  term_Write : T -> list Z -> T * bool;
  (** [Read] into a buffer of the given length *)
  term_Read : T -> Z -> T * chunk;
  term_Close : T -> T;
  (** the number of 10 ms sleeps that end before a deadline of the given
      duration fires, for a wait started in the given state *)
  sleeps_before : T -> Z -> nat;
  (** [xcrc32.NewCRC32], second component *)
  xcrc32_NewCRC32 : list Z -> Z;
  ioutil_ReadFile : string -> option (list Z);
  ioutil_WriteFile : string -> list Z -> bool
}.

(** ** The program *)

Section Program.

Context {E : Env}.
Variable fl : Flags.

(** Computations on the serial port that record their [spi] exchanges. *)
Definition M (A : Type) : Type := T -> T * list Event * res A.

Definition ret {A : Type} (a : A) : M A := fun t => (t, [], Ok a).

Definition fail {A : Type} (e : error) : M A := fun t => (t, [], Err e).

Definition fatal {A : Type} (x : exit) : M A := fun t => (t, [], Exit x).

Definition bind {A B : Type} (m : M A) (f : A -> M B) : M B :=
  fun t =>
    let '(t1, e1, r) := m t in
    match r with
    | Ok a => let '(t2, e2, r2) := f a t1 in (t2, e1 ++ e2, r2)
    | Err e => (t1, e1, Err e)
    | Exit x => (t1, e1, Exit x)
    end.

(** [if err := m; err != nil { return h(err) }]. *)
Definition on_err {A : Type} (m : M A) (h : error -> res A) : M A :=
  fun t =>
    let '(t1, e1, r) := m t in
    match r with
    | Err e => (t1, e1, h e)
    | _ => (t1, e1, r)
    end.

Notation "x <- m ;; k" := (bind m (fun x => k))
  (at level 61, m at next level, right associativity).
Notation "m ;;; k" := (bind m (fun _ => k))
  (at level 61, right associativity).

(** *** Transport framer *)

(** The loop of [spi] that collects the reply:
    [for uint(consumed) != expect { n, err := a.t.Read(resp[consumed:expect]) ... }].
    Each turn adds at least one byte, so [expect] turns are enough. *)
Fixpoint spi_collect (fuel : nat) (expect : Z) (resp : list Z) (consumed : Z)
  (t : T) : T * res (list Z) :=
  if consumed =? expect then (t, Ok resp)
  else
    match fuel with
    | O => (t, Err ErrFuel)
    | S fuel' =>
      let '(t1, r) := term_Read t (expect - consumed) in
      match r with
      | RdFail => (t1, Err (ErrTermRead consumed))
      | RdSome b bs =>
        (* the buffer is a []byte: what arrives is stored as bytes *)
        let got := map Int.byte (firstn (Z.to_nat (expect - consumed)) (b :: bs)) in
        let n := len got in
        spi_collect fuel' expect
          (firstn (Z.to_nat consumed) resp ++ got
             ++ skipn (Z.to_nat (consumed + n)) resp)
          (consumed + n) t1
      end
    end.

(** [spi] on the serial port alone. *)
Definition spi_term (cmds : list Z) (expect : Z) (t : T) : T * res (list Z) :=
  if (expect >? 16) || (len cmds >? 16) then (t, Err ErrProtocolLimit)
  else
    let resp := repeat 0 (Z.to_nat expect) in
    let send := Int.uint (len cmds) in
    let req := [ 1;
                 Int.byte (Z.land send 0xff);
                 Int.byte (Z.land (Z.shiftr send 8) 0xff);
                 Int.byte (Z.land expect 0xff);
                 Int.byte (Z.land (Z.shiftr expect 8) 0xff) ] in
    let '(t1, ok) := term_Write t (req ++ cmds) in
    if negb ok then (t1, Err ErrTermWrite)
    else spi_collect (Z.to_nat expect) expect resp 0 t1.

(** [spi] performs an SPI command using the TinyFPGA bootloader protocol;
    the exchange is appended to the record of the run. *)
Definition spi (cmds : list Z) (expect : Z) : M (list Z) :=
  fun t =>
    let '(t1, r) := spi_term cmds expect t in
    (t1, [mkEvent cmds expect (reply_of r)], r).

(** *** Completion waiter *)

Definition flashWIP : Z := 1.

(** The loop of [await]; [budget] is the number of 10 ms sleeps left before
    the deadline. *)
Fixpoint await_loop (budget : nat) (mask desired : Z) : M unit :=
  b <- on_err (spi [0x05] 1) (fun e => Err (ErrReadStatus e)) ;;
  if Z.land (nth 0 b 0) mask =? desired then ret tt
  else
    match budget with
    | O => fail ErrTimedOut
    | S budget' => await_loop budget' mask desired
    end.

(** [await] polls the status register until masked by mask, it equals
    desired. *)
Definition await (mask desired : Z) (timeout : Z) : M unit :=
  let timeout := if timeout =? 0 then latency fl else timeout in
  fun t => await_loop (sleeps_before t timeout) mask desired t.

Definition writeEnable : M unit :=
  on_err (spi [0x06] 0 ;;; ret tt) (fun _ => Err ErrWriteEnableFailed).

(** The three address bytes of a command, most significant first. *)
Definition addr_bytes (address : Z) : list Z :=
  [ Int.byte (Z.land (Z.shiftr address 16) 0xFF);
    Int.byte (Z.land (Z.shiftr address 8) 0xFF);
    Int.byte (Z.land address 0xFF) ].

(** *** Flash reader *)

(** The loop [for n > 0 { ... }] of [Read]. *)
Fixpoint Read_loop (fuel : nat) (address n : Z) (result : list Z)
  : M (list Z) :=
  if n >? 0 then
    match fuel with
    | O => fail ErrFuel
    | S fuel' =>
      (* cmd := make([]byte, 5): the fifth byte stays zero *)
      let cmd := 0x0B :: addr_bytes address ++ [0] in
      let offset := Z.land address 15 in
      let delta := Int.sub 16 offset in
      let delta := if delta >? n then n else delta in
      d <- spi cmd (Int.uint delta) ;;
      Read_loop fuel' (Int.add address delta) (Int.sub n delta) (result ++ d)
    end
  else ret result.

(** [Read] reads n bytes from a specific address returning a byte array. *)
Definition Read (address n : Z) : M (list Z) :=
  if (address <? 0) || (Int.add address n >? romSize) then fail ErrReadOutside
  else Read_loop (Z.to_nat n) address n [].

(** *** Flash writer *)

(** The padding step of [Write]. *)
Definition pad_data (data : list Z) : list Z :=
  if negb (Z.land (len data) 0xfff =? 0) then
    let extend := Int.sub 0x1000 (Z.land (len data) 0xfff) in
    let actual := repeat 0 (Z.to_nat (Int.add (len data) extend)) in
    let actual := fill actual (length data) (Z.to_nat extend) 0xff in
    copy actual data
  else data.

(** The loop [for n > 0 { ... }] of [Write]. *)
Fixpoint Write_loop (fuel : nat) (address offset n : Z) (data : list Z)
  : M unit :=
  if n >? 0 then
    match fuel with
    | O => fail ErrFuel
    | S fuel' =>
      (if Z.land address 0xfff =? 0 then
         let cmd := 0x20 :: addr_bytes address in
         on_err writeEnable (fun e => Err (ErrEraseEnable address e)) ;;;
         on_err (spi cmd 0 ;;; ret tt) (fun e => Err (ErrEraseFailed address e)) ;;;
         on_err (await flashWIP 0 (latency fl)) (fun e => Err (ErrSectorErase e))
       else ret tt) ;;;
      let delta := n in
      let delta := if delta >? 8 then 8 else delta in
      let cmd := 0x02 :: addr_bytes address in
      on_err writeEnable (fun _ => Err (ErrProgramEnable address)) ;;;
      spi (cmd ++ slice data offset (Int.add offset delta)) 0 ;;;
      on_err (await flashWIP 0 (latency fl)) (fun e => Err (ErrSectorErase e)) ;;;
      Write_loop fuel' (Int.add address delta) (Int.add offset delta)
                 (Int.sub n delta) data
    end
  else ret tt.

(** [Write] writes data array to address. *)
Definition Write (address : Z) (data : list Z) : M unit :=
  if negb (Z.land address 0xfff =? 0) then fail (ErrUnaligned address)
  else
    let data := pad_data data in
    let offset := 0 in
    let n := len data in
    if (address <? 0) || (Int.add address n >? romSize) then fail ErrWriteOutside
    else Write_loop (Z.to_nat n) address offset n data.

(** *** Session set-up *)

(** [reset] waits to confirm that there is no output from the device and
    then tries to issue a wake the SPI ROM command. *)
Definition reset : M unit :=
  (if reset_flag fl then
     on_err (spi [0x66] 0 ;;; ret tt) (fun _ => Err ErrEnableReset) ;;;
     on_err (spi [0x99] 0 ;;; ret tt) (fun _ => Err ErrResetDevice)
   else ret tt) ;;;
  (* Awake the ROM. *)
  spi [0xAB] 1 ;;;
  (* Read device information *)
  b <- spi [0x9F] 3 ;;
  if negb (nth 0 b 0 =? 0xC8) then fail (ErrMID (nth 0 b 0))
  else if negb (nth 1 b 0 =? 0x40) || negb (nth 2 b 0 =? 0x15)
  then fail (ErrDID (nth 1 b 0) (nth 2 b 0))
  else
    on_err (await 0 0 second) (fun e => Err (ErrReadStatus e)) ;;;
    (* a failure of this read is only printed *)
    on_err (Read 0 16 ;;; ret tt) (fun _ => Ok tt) ;;;
    ret tt.

(** [NewQF] opens a connection to a QuickFeather via the specified tty
    device file.  The session is the state of the port in the first
    component; it is returned to the caller only with [Ok]. *)
Definition NewQF (tty : string) : option T * list Event * res unit :=
  match term_Open tty with
  | None => (None, [], Err ErrOpen)
  | Some t =>
    let '(t1, ev, r) := reset t in
    match r with
    | Ok _ => (Some t1, ev, Ok tt)
    | Err e => (Some (term_Close t1), ev, Err e)
    | Exit x => (Some t1, ev, Exit x)
    end
  end.

(** *** Metadata codec *)

(** [binary.LittleEndian.PutUint32] and [Uint32]. *)
Definition PutUint32 (v : Z) : list Z :=
  [ Int.byte v; Int.byte (Z.shiftr v 8);
    Int.byte (Z.shiftr v 16); Int.byte (Z.shiftr v 24) ].

Definition Uint32 (b0 b1 b2 b3 : Z) : Z :=
  Z.lor (Z.lor (Z.lor b0 (Z.shiftl b1 8)) (Z.shiftl b2 16)) (Z.shiftl b3 24).

(** [binary.Write(buf, binary.LittleEndian, m)] on a [MetaData]: the
    fields in declaration order, integers little-endian. *)
Definition binary_Write (m : MetaData) : list Z :=
  PutUint32 (CRC m) ++ PutUint32 (Size m)
    ++ [ Int.byte (Written m); Int.byte (Image m);
         Int.byte (Purpose m); Int.byte (Reserved m) ].

(** [binary.Read(r, binary.LittleEndian, &decoded)]: consumes
    [binary.Size(decoded) = 12] bytes and fails on a shorter input. *)
Definition binary_Read (b : list Z) : option MetaData :=
  match b with
  | c0 :: c1 :: c2 :: c3 :: s0 :: s1 :: s2 :: s3 :: w :: i :: p :: r :: _ =>
    Some (mkMetaData (Uint32 c0 c1 c2 c3) (Uint32 s0 s1 s2 s3) w i p r)
  | _ => None
  end.

Definition binary_Size_MetaData : Z := 12.

(** [readMeta] reads the meta data and decodes it from the specified
    address. *)
Definition readMeta (sec : Sect) : M MetaData :=
  m <- on_err (Read (meta sec) binary_Size_MetaData)
              (fun e => Exit (FatalReadMeta (name sec) e)) ;;
  match binary_Read m with
  | Some decoded => ret decoded
  | None => fatal (FatalDecodeMeta (name sec))
  end.

(** [displayLayout] logs the layout of the flash: one [readMeta] per
    section, in the order of [sections]. *)
Definition displayLayout : M unit :=
  fold_right (fun sec k => readMeta sec ;;; k) (ret tt) sections.

(** [writeMeta] writes the metadata for a section to the flash.
    Protection checking should be performed prior to calling this
    function. *)
Definition writeMeta (sec : Sect) (m : MetaData) : M unit :=
  let buf := binary_Write m in
  if negb (len buf =? 12) then fatal (FatalMetaLength (name sec) (len buf))
  else on_err (Write (meta sec) buf)
              (fun e => Exit (FatalWriteMeta (name sec) e)).

(** *** Region catalog *)

(** [secByName] returns the section information for the named section. *)
Definition secByName (nm : string) : res Sect :=
  match find (fun sec => String.eqb (name sec) nm) sections with
  | Some sec => Ok sec
  | None => Exit (FatalNoSection nm)
  end.

Definition lift {A : Type} (r : res A) : M A := fun t => (t, [], r).

(** *** Integrity validator *)

(** [validate] attempts to confirm the CRC of the named section. *)
Definition validate (nm : string) : M unit :=
  sec <- lift (secByName nm) ;;
  mt <- readMeta sec ;;
  let max := Int.sub (limit sec) (base sec) in
  if Size mt >? Int.uint32 max
  then fail (ErrInvalidSize (name sec) (Size mt) max)
  else
    d <- on_err (Read (base sec) (Int.wrap (Size mt)))
                (fun e => Err (ErrFailedRead (name sec) (Size mt) e)) ;;
    let crc := xcrc32_NewCRC32 d in
    if crc =? CRC mt then ret tt
    else fail (ErrCrcMismatch (name sec) crc (CRC mt)).

(** *** The command-line driver *)

Definition nonempty (s : string) : bool := negb (String.eqb s "").

(** The tail of [main] that serves [--read]. *)
Definition main_read (addr lim : Z) : M unit :=
  lim <- (if nonempty (sect fl) then
            sec <- lift (secByName (sect fl)) ;;
            m <- readMeta sec ;;
            let sLimit := Int.add addr (Int.wrap (Size m)) in
            ret (if sLimit <? lim then sLimit else lim)
          else ret lim) ;;
  d <- on_err (Read addr (Int.sub lim addr)) (fun e => Exit (FatalRead e)) ;;
  (if negb (String.eqb (rd fl) "-") then
     if ioutil_WriteFile (rd fl) d then ret tt else fatal FatalWriteFile
   else ret tt) ;;;
  fatal ExitOK.

(** The tail of [main] that serves [--write]. *)
Definition main_write (addr lim mt : Z) : M unit :=
  match ioutil_ReadFile (wr fl) with
  | None => fatal (FatalReadFile (wr fl))
  | Some d =>
    if skip fl >? len d then fatal FatalSkip
    else
      d <- (if negb (skip fl =? 0) then
              if skip fl <? 0 then fatal GoPanic
              else ret (slice d (skip fl) (len d))
            else ret d) ;;
      if Int.add (len d) addr >? lim
      then fatal (FatalBeyondLimit lim (Int.sub (len d) (Int.sub lim addr)))
      else if addr <? protect fl
      then fatal (FatalWriteProtection (protect fl) addr)
      else
        on_err (Write addr d) (fun e => Exit (FatalWriteData e)) ;;;
        (* Note, this overrides the --protect limit to update the metadata. *)
        if negb (mt =? 0) then
          sec <- lift (secByName (sect fl)) ;;
          let crc := xcrc32_NewCRC32 d in
          writeMeta sec (mkMetaData crc (Int.uint32 (len d)) PresentWritten
                                    (image sec) (purpose sec) 0xff)
        else ret tt
  end.

(** [main] after the session is open and [--layout], [--check] are done:
    the address computation, [--disable], [--read] and [--write]. *)
Definition main_rw : M unit :=
  let addr := addrArg fl in
  let lim := limitArg fl in
  let mt := 0 in
  r <- (if nonempty (sect fl) then
          sec <- lift (secByName (sect fl)) ;;
          let addr := base sec in
          let lim := limit sec in
          let mt := meta sec in
          if disable fl then
            (* Disable a section by reseting only the metadata for it. *)
            if protect fl >? addr then fatal FatalProtectedSection
            else
              writeMeta sec (mkMetaData (Int.uint32 (-1)) (Int.uint32 (-1))
                                        PresentEmpty (image sec) (purpose sec)
                                        0xff) ;;;
              ret None
          else ret (Some (addr, lim, mt))
        else ret (Some (addr, lim, mt))) ;;
  match r with
  | None => ret tt
  | Some (addr, lim, mt) =>
    if addr >=? lim then fatal (FatalAddrLimit addr lim)
    else if lim >? romSize then fatal (FatalLimitRom lim)
    else if nonempty (rd fl) then main_read addr lim
    else if nonempty (wr fl) then main_write addr lim mt
    else ret tt
  end.

Definition main_session : M unit :=
  if layout fl then displayLayout
  else if check fl then
    if negb (nonempty (sect fl)) then fatal FatalCheckNeedsSection
    else on_err (validate (sect fl))
                (fun e => Exit (FatalCheckFailed (sect fl) e))
  else main_rw.

(** [main]: the final state of the port (if it was opened), the record of
    all [spi] exchanges, and how the process ended.  The deferred
    [qf.Close()] runs on a normal return only. *)
Definition main : option T * list Event * res unit :=
  let '(ot, ev0, r0) := NewQF (tty fl) in
  match r0, ot with
  | Ok _, Some t =>
    let '(t1, ev1, r1) := main_session t in
    match r1 with
    | Ok _ => (Some (term_Close t1), ev0 ++ ev1, r1)
    | _ => (Some t1, ev0 ++ ev1, r1)
    end
  | Err e, _ => (ot, ev0, Exit (FatalNotQuickFeather e))
  | _, _ => (ot, ev0, r0)
  end.

End Program.

Arguments M {E} A.

Notation "x <- m ;; k" := (bind m (fun x => k))
  (at level 61, m at next level, right associativity).
Notation "m ;;; k" := (bind m (fun _ => k))
  (at level 61, right associativity).

(** Projections of a run. *)
Definition final {E : Env} {A : Type} (x : T * list Event * res A) : T :=
  fst (fst x).
Definition events {E : Env} {A : Type} (x : T * list Event * res A)
  : list Event := snd (fst x).
Definition result {E : Env} {A : Type} (x : T * list Event * res A) : res A :=
  snd x.

(** ** Reading the record of a run *)

Definition is_byte (b : Z) : bool := (0 <=? b) && (b <? 256).

(** The address a command carries in the three bytes after its opcode. *)
Definition cmd_addr (cmds : list Z) : option Z :=
  match cmds with
  | _ :: a2 :: a1 :: a0 :: _ =>
    if is_byte a2 && is_byte a1 && is_byte a0
    then Some (a2 * 65536 + a1 * 256 + a0) else None
  | _ => None
  end.

Definition opcode (e : Event) : Z := nth 0 (ev_cmds e) (-1).

(** The address of a sector-erase or page-program command. *)
Definition write_target (e : Event) : option Z :=
  if (opcode e =? 0x20) || (opcode e =? 0x02) then cmd_addr (ev_cmds e)
  else None.

Fixpoint write_targets (evs : list Event) : list Z :=
  match evs with
  | [] => []
  | e :: rest =>
    match write_target e with
    | Some a => a :: write_targets rest
    | None => write_targets rest
    end
  end.

(** The bytes the page-program commands of a record carry, each with the
    address it is programmed at, in the order of the commands. *)
Fixpoint number_from (a : Z) (l : list Z) : list (Z * Z) :=
  match l with
  | [] => []
  | b :: rest => (a, b) :: number_from (a + 1) rest
  end.

Fixpoint programmed (evs : list Event) : list (Z * Z) :=
  match evs with
  | [] => []
  | e :: rest =>
    if opcode e =? 0x02 then
      match cmd_addr (ev_cmds e) with
      | Some a => number_from a (skipn 4 (ev_cmds e)) ++ programmed rest
      | None => programmed rest
      end
    else programmed rest
  end.

(** *** A general monitor over the record of a run *)

Section Monitor.

Context {St : Type}.
Variable step : St -> Event -> option St.

Fixpoint run (s : St) (evs : list Event) : option St :=
  match evs with
  | [] => Some s
  | e :: rest =>
    match step s e with
    | Some s' => run s' rest
    | None => None
    end
  end.

End Monitor.

(** *** The order of commands the writer has to keep *)

Inductive wphase : Type :=
| WReady        (* between chunks *)
| WEraseEnabled (* write-enable given for a sector erase *)
| WErasing      (* sector erase sent, not yet complete *)
| WErased       (* sector erase complete *)
| WProgEnabled  (* write-enable given for a page program *)
| WProgramming  (* page program sent, not yet complete *)
| WDead.        (* an exchange failed: nothing may follow *)

Record wstate : Type := mkW {
  w_phase : wphase;
  w_next : Z;           (* the address of the next byte to program *)
  w_done : list Z       (* the bytes programmed so far, in order *)
}.

Definition is_write_enable (e : Event) : bool :=
  match ev_cmds e with
  | [c] => (c =? 0x06) && (ev_expect e =? 0)
  | _ => false
  end.

Definition is_status_poll (e : Event) : bool :=
  match ev_cmds e with
  | [c] => (c =? 0x05) && (ev_expect e =? 1)
  | _ => false
  end.

(** A status poll completes a wait when the write-in-progress bit of the
    reply is clear. *)
Definition poll_phase (e : Event) (busy done : wphase) : wphase :=
  match ev_reply e with
  | None => WDead
  | Some b => if Z.land (nth 0 b 0) 1 =? 0 then done else busy
  end.

Definition wstep (s : wstate) (e : Event) : option wstate :=
  let to ph := Some (mkW ph (w_next s) (w_done s)) in
  let alive ph := match ev_reply e with Some _ => ph | None => WDead end in
  match w_phase s with
  | WReady =>
    if is_write_enable e
    then to (alive (if w_next s mod 4096 =? 0 then WEraseEnabled
                    else WProgEnabled))
    else None
  | WEraseEnabled =>
    match ev_cmds e with
    | [op; _; _; _] =>
      if (op =? 0x20) && (ev_expect e =? 0)
      then match cmd_addr (ev_cmds e) with
           | Some a => if a =? w_next s then to (alive WErasing) else None
           | None => None
           end
      else None
    | _ => None
    end
  | WErasing =>
    if is_status_poll e then to (poll_phase e WErasing WErased) else None
  | WErased =>
    if is_write_enable e then to (alive WProgEnabled) else None
  | WProgEnabled =>
    let payload := skipn 4 (ev_cmds e) in
    if (opcode e =? 0x02) && (ev_expect e =? 0)
       && (1 <=? len payload) && (len payload <=? 8)
       && (w_next s mod 4096 + len payload <=? 4096)
    then match cmd_addr (ev_cmds e) with
         | Some a =>
           if a =? w_next s then
             Some (mkW (alive WProgramming) (w_next s + len payload)
                       (w_done s ++ payload))
           else None
         | None => None
         end
    else None
  | WProgramming =>
    if is_status_poll e then to (poll_phase e WProgramming WReady) else None
  | WDead => None
  end.

(** *** The requests the reader has to make *)

(** Spec, Flash Reader: each step asks for
    [delta = min(16 - (address mod 16), remaining)] bytes at the current
    address and advances the address by [delta]. *)
Fixpoint read_plan (fuel : nat) (address remaining : Z) : list (Z * Z) :=
  match fuel with
  | O => []
  | S fuel' =>
    if remaining <=? 0 then []
    else
      let delta := Z.min (16 - address mod 16) remaining in
      (address, delta) :: read_plan fuel' (address + delta) (remaining - delta)
  end.

Definition plan (address n : Z) : list (Z * Z) :=
  read_plan (Z.to_nat n) address n.

(** The pieces of a plan lie one after the other from [a] up to [e]. *)
Fixpoint contiguous (a : Z) (l : list (Z * Z)) (e : Z) : Prop :=
  match l with
  | [] => a = e
  | (a', d) :: rest => a' = a /\ 0 < d /\ contiguous (a + d) rest e
  end.

(** A piece stays inside one 16-byte window. *)
Definition in_window (p : Z * Z) : Prop :=
  let '(a, d) := p in 1 <= d <= 16 /\ a / 16 = (a + d - 1) / 16.

(** The state of the reader's monitor: the pieces still to be asked for
    and the bytes received so far; [None] once an exchange has failed. *)
Definition rstate : Type := option (list (Z * Z) * list Z).

Definition rstep (s : rstate) (e : Event) : option rstate :=
  match s with
  | None => None
  | Some ([], _) => None
  | Some ((a, d) :: rest, got) =>
    if (opcode e =? 0x0B) && (ev_expect e =? d)
    then match cmd_addr (ev_cmds e) with
         | Some a' =>
           if a' =? a then
             match ev_reply e with
             | Some b => if len b =? d then Some (Some (rest, got ++ b))
                         else None
             | None => Some None
             end
           else None
         | None => None
         end
    else None
  end.

(** ** A simulated board

    A GD25Q16-like flash behind the bootloader's framing, used to run the
    program on concrete inputs.  [term_Write] takes one framed packet and
    executes the command in it; [term_Read] hands out the reply, at most
    [sim_burst] bytes at a time. *)

Record Sim : Type := mkSim {
  sim_mem : Z -> Z;       (* the flash array *)
  sim_wel : bool;         (* the write-enable latch *)
  sim_busy : nat;         (* status polls that still report busy *)
  sim_out : list Z;       (* reply bytes not yet read *)
  sim_id : list Z;        (* the JEDEC ID the chip reports *)
  sim_open : bool
}.

Definition sim_burst : nat := 3.

Definition sim_addr (a2 a1 a0 : Z) : Z := a2 * 65536 + a1 * 256 + a0.

Fixpoint sim_program (mem : Z -> Z) (a : Z) (payload : list Z) : Z -> Z :=
  match payload with
  | [] => mem
  | b :: rest =>
    sim_program (fun x => if x =? a then Z.land (mem a) b else mem x)
                (a + 1) rest
  end.

Definition sim_erase (mem : Z -> Z) (a : Z) : Z -> Z :=
  fun x => if x / 4096 =? a / 4096 then 0xff else mem x.

Definition sim_fit (n : Z) (l : list Z) : list Z :=
  firstn (Z.to_nat n) (l ++ repeat 0 (Z.to_nat n)).

Definition sim_exec (s : Sim) (cmds : list Z) (expect : Z) : Sim :=
  let reply out := mkSim (sim_mem s) (sim_wel s) (sim_busy s)
                         (sim_fit expect out) (sim_id s) (sim_open s) in
  match cmds with
  | 0x05 :: _ =>
    mkSim (sim_mem s) (sim_wel s) (pred (sim_busy s))
          (sim_fit expect [match sim_busy s with O => 0 | _ => 1 end])
          (sim_id s) (sim_open s)
  | 0x06 :: _ =>
    mkSim (sim_mem s) true (sim_busy s) (sim_fit expect []) (sim_id s)
          (sim_open s)
  | 0x9F :: _ => reply (sim_id s)
  | 0xAB :: _ => reply [0x14]
  | 0x0B :: a2 :: a1 :: a0 :: _ =>
    reply (map (fun i => sim_mem s (sim_addr a2 a1 a0 + Z.of_nat i))
               (seq 0 (Z.to_nat expect)))
  | 0x20 :: a2 :: a1 :: a0 :: _ =>
    if sim_wel s
    then mkSim (sim_erase (sim_mem s) (sim_addr a2 a1 a0)) false 2
               (sim_fit expect []) (sim_id s) (sim_open s)
    else reply []
  | 0x02 :: a2 :: a1 :: a0 :: payload =>
    if sim_wel s
    then mkSim (sim_program (sim_mem s) (sim_addr a2 a1 a0) payload) false 1
               (sim_fit expect []) (sim_id s) (sim_open s)
    else reply []
  | _ => reply []
  end.

Definition sim_Write (s : Sim) (packet : list Z) : Sim * bool :=
  match packet with
  | 1 :: sl :: sh :: el :: eh :: cmds =>
    if len cmds =? sl + 256 * sh
    then (sim_exec s cmds (el + 256 * eh), true)
    else (s, false)
  | _ => (s, false)
  end.

Definition sim_Read (s : Sim) (room : Z) : Sim * chunk :=
  match firstn (Nat.min sim_burst (Z.to_nat room)) (sim_out s) with
  | [] => (s, RdFail)
  | b :: bs =>
    (mkSim (sim_mem s) (sim_wel s) (sim_busy s)
           (skipn (S (length bs)) (sim_out s)) (sim_id s) (sim_open s),
     RdSome b bs)
  end.

Definition sim_Close (s : Sim) : Sim :=
  mkSim (sim_mem s) (sim_wel s) (sim_busy s) (sim_out s) (sim_id s) false.

(** The libiberty [xcrc32] (polynomial 0x04c11db7, most significant bit
    first, initial value 0xffffffff), for the simulated runs. *)
Definition crc_bit (crc : Z) : Z :=
  let shifted := Z.land (Z.shiftl crc 1) 0xffffffff in
  if Z.testbit crc 31 then Z.lxor shifted 0x04c11db7 else shifted.

Definition crc_byte (crc b : Z) : Z :=
  let c := Z.lxor crc (Z.shiftl b 24) in
  crc_bit (crc_bit (crc_bit (crc_bit (crc_bit (crc_bit (crc_bit (crc_bit c))))))).

Definition sim_crc (d : list Z) : Z := fold_left crc_byte d 0xffffffff.

(** A fresh board: erased flash holding [image] from address [at]. *)
Definition sim_board (id : list Z) (at_ : Z) (image : list Z) : Sim :=
  mkSim (fun x => if (at_ <=? x) && (x <? at_ + len image)
                  then nth (Z.to_nat (x - at_)) image 0xff else 0xff)
        false 0 [] id true.

Definition good_id : list Z := [0xC8; 0x40; 0x15].

(** The environment of a simulated run: the board, and the one file the
    tool may read. *)
Definition SimEnv (board : Sim) (file : list Z) : Env :=
  {| T := Sim;
     term_Open := fun _ => Some board;
     term_Write := sim_Write;
     term_Read := sim_Read;
     term_Close := sim_Close;
     sleeps_before := fun _ timeout => Z.to_nat (timeout / 10000000);
     xcrc32_NewCRC32 := sim_crc;
     ioutil_ReadFile := fun _ => Some file;
     ioutil_WriteFile := fun _ _ => true |}.

(** * Proofs *)

(** ** Machine integers and slices *)

Lemma wrap_small (z : Z) : Int.in_range z -> Int.wrap z = z.
Proof.
  unfold Int.in_range, Int.min_int, Int.max_int, Int.wrap. intros H.
  rewrite Z.mod_small; lia.
Qed.

Lemma add_small (a b : Z) : Int.in_range (a + b) -> Int.add a b = a + b.
Proof. apply wrap_small. Qed.

Lemma sub_small (a b : Z) : Int.in_range (a - b) -> Int.sub a b = a - b.
Proof. apply wrap_small. Qed.

Lemma in_range_small (z : Z) : -2 ^ 62 <= z <= 2 ^ 62 -> Int.in_range z.
Proof. unfold Int.in_range, Int.min_int, Int.max_int. lia. Qed.

Lemma land_low (a : Z) (n : Z) : 0 <= n -> Z.land a (2 ^ n - 1) = a mod 2 ^ n.
Proof.
  intros. replace (2 ^ n - 1) with (Z.ones n) by (rewrite Z.ones_equiv; lia).
  now apply Z.land_ones.
Qed.

Lemma land_fff (a : Z) : Z.land a 0xfff = a mod 4096.
Proof. apply (land_low a 12). lia. Qed.

Lemma land_ff (a : Z) : Z.land a 0xFF = a mod 256.
Proof. apply (land_low a 8). lia. Qed.

Lemma land_15 (a : Z) : Z.land a 15 = a mod 16.
Proof. apply (land_low a 4). lia. Qed.

Lemma len_app {A : Type} (l1 l2 : list A) : len (l1 ++ l2) = len l1 + len l2.
Proof. unfold len. rewrite length_app. lia. Qed.

Lemma len_nonneg {A : Type} (l : list A) : 0 <= len l.
Proof. unfold len. lia. Qed.

Lemma to_nat_len {A : Type} (l : list A) : Z.to_nat (len l) = length l.
Proof. unfold len. apply Nat2Z.id. Qed.

Lemma len_repeat_to_nat {A : Type} (x : A) (n : Z) :
  0 <= n -> len (repeat x (Z.to_nat n)) = n.
Proof. intros. unfold len. rewrite repeat_length. lia. Qed.

Lemma len_repeat {A : Type} (x : A) (n : nat) : len (repeat x n) = Z.of_nat n.
Proof. unfold len. now rewrite repeat_length. Qed.

(** The address bytes of a command decode to the address. *)
Lemma cmd_addr_bytes (op a : Z) (rest : list Z) :
  0 <= a < 2 ^ 24 -> cmd_addr (op :: addr_bytes a ++ rest) = Some a.
Proof.
  intros Ha. unfold addr_bytes, cmd_addr, is_byte, Int.byte. simpl app.
  rewrite !land_ff, !Z.shiftr_div_pow2 by lia.
  change (2 ^ 16) with 65536. change (2 ^ 8) with 256.
  rewrite !Z.mod_mod by lia.
  assert (H16 := Z.mod_pos_bound (a / 65536) 256 ltac:(lia)).
  assert (H8 := Z.mod_pos_bound (a / 256) 256 ltac:(lia)).
  assert (H0 := Z.mod_pos_bound a 256 ltac:(lia)).
  replace (0 <=? (a / 65536) mod 256) with true by (symmetry; apply Z.leb_le; lia).
  replace ((a / 65536) mod 256 <? 256) with true by (symmetry; apply Z.ltb_lt; lia).
  replace (0 <=? (a / 256) mod 256) with true by (symmetry; apply Z.leb_le; lia).
  replace ((a / 256) mod 256 <? 256) with true by (symmetry; apply Z.ltb_lt; lia).
  replace (0 <=? a mod 256) with true by (symmetry; apply Z.leb_le; lia).
  replace (a mod 256 <? 256) with true by (symmetry; apply Z.ltb_lt; lia).
  simpl. f_equal.
  change (2 ^ 24) with 16777216 in Ha.
  rewrite (Z.mod_small (a / 65536)) by
    (split; [apply Z.div_pos; lia | apply Z.div_lt_upper_bound; lia]).
  clear H16 H8 H0. Z.to_euclidean_division_equations. lia.
Qed.

(** The fill loop of the padding step. *)
Lemma fill_loop (L ext : nat) (v : Z) :
  fill (repeat 0 (L + ext)) L ext v = repeat 0 L ++ repeat v ext.
Proof.
  induction L as [|L IH]; simpl.
  - induction ext as [|ext IHe]; simpl; [reflexivity|]. now rewrite IHe.
  - now rewrite IH.
Qed.

(** The number of fill bytes: up to the next multiple of 4096. *)
Definition fill_len (data : list Z) : Z := (4096 - len data mod 4096) mod 4096.

Lemma pad_data_spec (data : list Z) :
  len data + 4096 <= Int.max_int ->
  pad_data data = data ++ repeat 0xff (Z.to_nat (fill_len data)).
Proof.
  intros Hlen. unfold pad_data, fill_len. rewrite land_fff.
  assert (Hm := Z.mod_pos_bound (len data) 4096 ltac:(lia)).
  assert (H0 := len_nonneg data).
  destruct (Z.eqb_spec (len data mod 4096) 0) as [Hz|Hz]; simpl negb; cbv iota.
  - rewrite Hz. simpl. now rewrite app_nil_r.
  - rewrite (Z.mod_small (4096 - _)) by lia.
    rewrite sub_small by (unfold Int.in_range, Int.min_int, Int.max_int in *; lia).
    rewrite add_small by (unfold Int.in_range, Int.min_int, Int.max_int in *; lia).
    set (ext := Z.to_nat (4096 - len data mod 4096)).
    replace (Z.to_nat (len data + (4096 - len data mod 4096)))
      with (length data + ext)%nat
      by (unfold ext; rewrite Z2Nat.inj_add by lia; now rewrite to_nat_len).
    rewrite fill_loop. unfold copy.
    rewrite firstn_all2 by (rewrite length_app, !repeat_length; lia).
    f_equal. rewrite skipn_app, repeat_length, Nat.sub_diag. simpl.
    rewrite skipn_all2 by (rewrite repeat_length; lia). reflexivity.
Qed.

Lemma fill_len_bounds (data : list Z) :
  0 <= fill_len data < 4096 /\ (len data + fill_len data) mod 4096 = 0.
Proof.
  unfold fill_len. assert (H0 := len_nonneg data).
  Z.to_euclidean_division_equations. lia.
Qed.

(** ** The transport framer *)

(** The errors that come from the device or the serial port: a failed
    exchange or a wait that timed out, possibly wrapped by the caller. *)
Definition device_error (e : error) : bool :=
  match e with
  | ErrProtocolLimit | ErrTermWrite | ErrTermRead _ | ErrTimedOut
  | ErrReadStatus _ | ErrWriteEnableFailed | ErrEraseEnable _ _
  | ErrEraseFailed _ _ | ErrSectorErase _ | ErrProgramEnable _ => true
  | _ => false
  end.

Ltac solve_err := first [discriminate | reflexivity | assumption | tauto].

(** What [spi] can return when asked for [expect] bytes: a reply of that
    length or an error of the transport; the fuel of the model is never
    exhausted. *)
Definition spi_ok (expect : Z) (r : res (list Z)) : Prop :=
  match r with
  | Ok resp => len resp = expect /\ Forall (fun b => 0 <= b < 256) resp
  | Err e => device_error e = true
  | Exit _ => False
  end.

Section Framer.

Context {E : Env}.

Lemma Forall_firstn {A : Type} (P : A -> Prop) (n : nat) (l : list A) :
  Forall P l -> Forall P (firstn n l).
Proof.
  intros H. rewrite <- (firstn_skipn n l) in H.
  apply Forall_app in H. apply H.
Qed.

Lemma Forall_skipn {A : Type} (P : A -> Prop) (n : nat) (l : list A) :
  Forall P l -> Forall P (skipn n l).
Proof.
  intros H. rewrite <- (firstn_skipn n l) in H.
  apply Forall_app in H. apply H.
Qed.

Lemma Forall_byte_map (l : list Z) :
  Forall (fun b => 0 <= b < 256) (map Int.byte l).
Proof.
  induction l as [|x l IH]; simpl; constructor; [|exact IH].
  unfold Int.byte. apply Z.mod_pos_bound. lia.
Qed.

Lemma spi_collect_ok (fuel : nat) :
  forall (expect : Z) (resp : list Z) (consumed : Z) (t : T),
    0 <= consumed <= expect -> len resp = expect ->
    Forall (fun b => 0 <= b < 256) resp ->
    (Z.to_nat (expect - consumed) <= fuel)%nat ->
    spi_ok expect (snd (spi_collect fuel expect resp consumed t)).
Proof.
  induction fuel as [|fuel IH]; intros expect resp consumed t Hc Hl Hb Hf;
    simpl; destruct (Z.eqb_spec consumed expect) as [Heq|Hne];
    try (simpl; split; assumption).
  - lia.
  - destruct (term_Read t (expect - consumed)) as [t1 [|b bs]]; simpl.
    + solve_err.
    + set (got := map Int.byte (firstn (Z.to_nat (expect - consumed)) (b :: bs))).
      assert (Hgot : 1 <= len got <= expect - consumed).
      { unfold got, len. rewrite length_map, length_firstn. simpl length. lia. }
      apply IH; try lia.
      * rewrite !len_app. unfold len at 1 3.
        rewrite length_firstn, length_skipn. unfold len in *. lia.
      * apply Forall_app. split; [now apply Forall_firstn|].
        apply Forall_app. split; [apply Forall_byte_map | now apply Forall_skipn].
Qed.

Lemma spi_term_ok (cmds : list Z) (expect : Z) (t : T) :
  0 <= expect -> spi_ok expect (snd (spi_term cmds expect t)).
Proof.
  intros He. unfold spi_term.
  destruct ((expect >? 16) || (len cmds >? 16)); [simpl; solve_err|].
  destruct (term_Write t _) as [t1 [|]]; simpl negb; cbv iota.
  - apply spi_collect_ok; try lia.
    + apply len_repeat_to_nat. assumption.
    + apply Forall_forall. intros x Hx. apply repeat_spec in Hx. lia.
  - simpl. solve_err.
Qed.

End Framer.

(** ** A logic of runs against a monitor

    [triple step s m Q]: from every state of the port, the exchanges of
    [m] drive the monitor from [s] to a state [s'] without ever being
    refused, and [Q] relates the result of [m] to [s']. *)

Section Logic.

Context {E : Env} {St : Type}.
Variable step : St -> Event -> option St.

Definition triple {A : Type} (s : St) (m : M A) (Q : res A -> St -> Prop)
  : Prop :=
  forall t, exists s', run step s (events (m t)) = Some s'
                       /\ Q (result (m t)) s'.

Lemma run_app (s : St) (e1 e2 : list Event) :
  run step s (e1 ++ e2)
  = match run step s e1 with Some s1 => run step s1 e2 | None => None end.
Proof.
  revert s. induction e1 as [|e e1 IH]; intros s; simpl; [reflexivity|].
  destruct (step s e); [apply IH | reflexivity].
Qed.

Lemma triple_ret {A : Type} (s : St) (a : A) (Q : res A -> St -> Prop) :
  Q (Ok a) s -> triple s (ret a) Q.
Proof. intros H t. exists s. split; [reflexivity | exact H]. Qed.

Lemma triple_fail {A : Type} (s : St) (e : error) (Q : res A -> St -> Prop) :
  Q (Err e) s -> triple s (fail e) Q.
Proof. intros H t. exists s. split; [reflexivity | exact H]. Qed.

Lemma triple_bind {A B : Type} (s : St) (m : M A) (f : A -> M B)
  (Q1 : res A -> St -> Prop) (Q : res B -> St -> Prop) :
  triple s m Q1 ->
  (forall a s1, Q1 (Ok a) s1 -> triple s1 (f a) Q) ->
  (forall e s1, Q1 (Err e) s1 -> Q (Err e) s1) ->
  (forall x s1, Q1 (Exit x) s1 -> Q (Exit x) s1) ->
  triple s (bind m f) Q.
Proof.
  intros Hm Hf He Hx t. unfold bind.
  destruct (Hm t) as (s1 & Hr1 & HQ1).
  destruct (m t) as [[t1 e1] r]. unfold events, result in *. simpl in *.
  destruct r as [a|e|x].
  - destruct (Hf a s1 HQ1 t1) as (s2 & Hr2 & HQ2).
    destruct (f a t1) as [[t2 e2] r2]. simpl in *.
    exists s2. rewrite run_app, Hr1. auto.
  - exists s1. simpl. auto.
  - exists s1. simpl. auto.
Qed.

Lemma triple_on_err {A : Type} (s : St) (m : M A) (h : error -> res A)
  (Q1 Q : res A -> St -> Prop) :
  triple s m Q1 ->
  (forall r s1, Q1 r s1 ->
                Q (match r with Err e => h e | _ => r end) s1) ->
  triple s (on_err m h) Q.
Proof.
  intros Hm Hh t. unfold on_err.
  destruct (Hm t) as (s1 & Hr1 & HQ1).
  destruct (m t) as [[t1 e1] r]. unfold events, result in *. simpl in *.
  specialize (Hh r s1 HQ1). exists s1. destruct r; simpl; auto.
Qed.

Lemma triple_conseq {A : Type} (s : St) (m : M A)
  (Q1 Q : res A -> St -> Prop) :
  triple s m Q1 -> (forall r s1, Q1 r s1 -> Q r s1) -> triple s m Q.
Proof.
  intros Hm Hq t. destruct (Hm t) as (s1 & Hr & HQ). exists s1. auto.
Qed.

Lemma triple_spi (s : St) (cmds : list Z) (expect : Z)
  (Q : res (list Z) -> St -> Prop) :
  0 <= expect ->
  (forall r, spi_ok expect r ->
             exists s', step s (mkEvent cmds expect (reply_of r)) = Some s'
                        /\ Q r s') ->
  triple s (spi cmds expect) Q.
Proof.
  intros He H t. unfold spi.
  assert (Hok := spi_term_ok cmds expect t He).
  destruct (spi_term cmds expect t) as [t1 r]. simpl in Hok.
  destruct (H r Hok) as (s' & Hs & HQ).
  exists s'. unfold events, result. simpl. rewrite Hs. auto.
Qed.

End Logic.

(** ** The flash writer against its monitor *)

Lemma firstn_add {A : Type} (i j : nat) (l : list A) :
  firstn (i + j) l = firstn i l ++ firstn j (skipn i l).
Proof.
  revert l. induction i as [|i IH]; intros l; simpl; [reflexivity|].
  destruct l as [|x l]; simpl.
  - now rewrite firstn_nil.
  - now rewrite IH.
Qed.

Lemma slice_app {A : Type} (l : list A) (a b c : Z) :
  0 <= a <= b -> b <= c -> slice l a b ++ slice l b c = slice l a c.
Proof.
  intros Hab Hbc. unfold slice.
  replace (Z.to_nat (c - a)) with (Z.to_nat (b - a) + Z.to_nat (c - b))%nat
    by lia.
  rewrite firstn_add, skipn_skipn. do 3 f_equal. lia.
Qed.

Lemma slice_empty {A : Type} (l : list A) (a : Z) : slice l a a = [].
Proof. unfold slice. now rewrite Z.sub_diag. Qed.

Lemma slice_len {A : Type} (l : list A) (a b : Z) :
  0 <= a <= b -> b <= len l -> len (slice l a b) = b - a.
Proof.
  intros Hab Hb. unfold slice, len in *.
  rewrite length_firstn, length_skipn. lia.
Qed.

Lemma wstep_enable (ph : wphase) (a : Z) (done : list Z) (r : option (list Z)) :
  ph = WReady \/ ph = WErased ->
  wstep (mkW ph a done) (mkEvent [0x06] 0 r)
  = Some (mkW (match r with
               | None => WDead
               | Some _ =>
                 match ph with
                 | WReady => if a mod 4096 =? 0 then WEraseEnabled
                             else WProgEnabled
                 | _ => WProgEnabled
                 end
               end) a done).
Proof. intros [-> | ->]; reflexivity. Qed.

Lemma wstep_erase (a : Z) (done : list Z) (r : option (list Z)) :
  0 <= a < 2 ^ 24 ->
  wstep (mkW WEraseEnabled a done) (mkEvent (0x20 :: addr_bytes a) 0 r)
  = Some (mkW (match r with Some _ => WErasing | None => WDead end) a done).
Proof.
  intros Ha. unfold wstep. cbn [w_phase ev_cmds ev_expect ev_reply w_next w_done].
  assert (Hc := cmd_addr_bytes 0x20 a [] Ha). rewrite app_nil_r in Hc.
  unfold addr_bytes in *. rewrite Hc. simpl. rewrite Z.eqb_refl. reflexivity.
Qed.

Lemma wstep_poll (busy done_ph : wphase) (a : Z) (done : list Z)
  (r : option (list Z)) :
  (busy = WErasing /\ done_ph = WErased)
  \/ (busy = WProgramming /\ done_ph = WReady) ->
  wstep (mkW busy a done) (mkEvent [0x05] 1 r)
  = Some (mkW (poll_phase (mkEvent [0x05] 1 r) busy done_ph) a done).
Proof. intros [[-> ->] | [-> ->]]; reflexivity. Qed.

Lemma wstep_program (a : Z) (done payload : list Z) (r : option (list Z)) :
  0 <= a < 2 ^ 24 -> 1 <= len payload <= 8 ->
  a mod 4096 + len payload <= 4096 ->
  wstep (mkW WProgEnabled a done)
        (mkEvent ((0x02 :: addr_bytes a) ++ payload) 0 r)
  = Some (mkW (match r with Some _ => WProgramming | None => WDead end)
              (a + len payload) (done ++ payload)).
Proof.
  intros Ha Hp Hs. unfold wstep.
  cbn [w_phase ev_cmds ev_expect ev_reply w_next w_done].
  assert (Hc := cmd_addr_bytes 0x02 a payload Ha).
  change ((0x02 :: addr_bytes a) ++ payload) with (0x02 :: addr_bytes a ++ payload).
  rewrite Hc. unfold opcode. cbn [ev_cmds nth]. unfold addr_bytes.
  cbn [app skipn]. rewrite Z.eqb_refl.
  replace (1 <=? len payload) with true by (symmetry; apply Z.leb_le; lia).
  replace (len payload <=? 8) with true by (symmetry; apply Z.leb_le; lia).
  replace (a mod 4096 + len payload <=? 4096) with true
    by (symmetry; apply Z.leb_le; lia).
  simpl. destruct r; rewrite ?Z.eqb_refl; reflexivity.
Qed.

Section Writer.

Context {E : Env}.
Variable fl : Flags.

(** The monitor has reached phase [ph] (on success) without programming
    anything further. *)
Definition kept {A : Type} (ph : wphase) (a : Z) (done : list Z)
  (r : res A) (s : wstate) : Prop :=
  w_next s = a /\ w_done s = done /\
  match r with
  | Ok _ => w_phase s = ph
  | Err e => w_phase s <> WReady /\ device_error e = true
  | Exit _ => False
  end.

Definition after_poll (busy done_ph : wphase) (a : Z) (done : list Z)
  (r : res (list Z)) (s : wstate) : Prop :=
  w_next s = a /\ w_done s = done /\
  match r with
  | Ok b => w_phase s = (if Z.land (nth 0 b 0) flashWIP =? 0
                         then done_ph else busy)
  | Err e => w_phase s <> WReady /\ device_error e = true
  | Exit _ => False
  end.

Lemma poll_wmon (busy done_ph : wphase) (a : Z) (done : list Z) :
  (busy = WErasing /\ done_ph = WErased)
  \/ (busy = WProgramming /\ done_ph = WReady) ->
  triple wstep (mkW busy a done)
         (on_err (spi [0x05] 1) (fun e => Err (ErrReadStatus e)))
         (after_poll busy done_ph a done).
Proof.
  intros Hph.
  eapply triple_on_err with
    (Q1 := fun r s => after_poll busy done_ph a done r s /\ spi_ok 1 r).
  - apply triple_spi; [lia|]. intros r Hr. eexists. split.
    + apply (wstep_poll busy done_ph). exact Hph.
    + unfold after_poll. cbn [w_next w_done w_phase].
      destruct r as [b|e|x]; simpl in *; repeat split; trivial; solve_err.
  - intros r s1 [(Hn & Hd & Hp) Hok]. unfold after_poll.
    destruct r as [b|e|x]; simpl in *; repeat split; try tauto; solve_err.
Qed.

Lemma await_loop_wmon (busy done_ph : wphase) (a : Z) (done : list Z)
  (budget : nat) :
  (busy = WErasing /\ done_ph = WErased)
  \/ (busy = WProgramming /\ done_ph = WReady) ->
  triple wstep (mkW busy a done) (await_loop budget flashWIP 0)
         (kept done_ph a done).
Proof.
  intros Hph.
  induction budget as [|budget IH]; simpl await_loop;
    (eapply triple_bind;
     [ apply (poll_wmon busy done_ph a done Hph)
     | intros b s1 (Hn & Hd & Hp)
     | intros e s1 H; exact H
     | intros x s1 (Hn & Hd & Hp); contradiction ]);
    (destruct (Z.land (nth 0 b 0) flashWIP =? 0);
     [ apply triple_ret; repeat split; assumption | ]).
  - apply triple_fail. repeat split; try assumption; try solve_err.
    rewrite Hp. destruct Hph as [[-> _]|[-> _]]; solve_err.
  - destruct s1 as [ph nx dn]. simpl in *. subst. apply IH.
Qed.

Lemma await_wmon (busy done_ph : wphase) (a : Z) (done : list Z)
  (timeout : Z) (h : error -> res unit) :
  (busy = WErasing /\ done_ph = WErased)
  \/ (busy = WProgramming /\ done_ph = WReady) ->
  (forall e, exists e', h e = Err e' /\ device_error e' = true) ->
  triple wstep (mkW busy a done) (on_err (await fl flashWIP 0 timeout) h)
         (kept done_ph a done).
Proof.
  intros Hph Hh. eapply triple_on_err with (Q1 := kept done_ph a done).
  - intros t. unfold await. apply await_loop_wmon. exact Hph.
  - intros r s1 (Hn & Hd & Hp). repeat split; try assumption.
    destruct r as [u|e|x]; try assumption.
    destruct (Hh e) as (e' & -> & He'). split; [apply Hp | exact He'].
Qed.

Lemma enable_wmon (ph : wphase) (a : Z) (done : list Z)
  (h : error -> res unit) :
  ph = WReady \/ ph = WErased ->
  (forall e, exists e', h e = Err e' /\ device_error e' = true) ->
  triple wstep (mkW ph a done) (on_err writeEnable h)
         (kept (match ph with
                | WReady => if a mod 4096 =? 0 then WEraseEnabled
                            else WProgEnabled
                | _ => WProgEnabled
                end) a done).
Proof.
  intros Hph Hh. set (ph' := match ph with WReady => _ | _ => _ end).
  eapply triple_on_err with (Q1 := kept ph' a done).
  - unfold writeEnable.
    eapply triple_on_err with (Q1 := kept ph' a done).
    + eapply triple_bind with (Q1 := kept ph' a done).
      * apply triple_spi; [lia|]. intros r Hr. eexists. split.
        { apply wstep_enable. exact Hph. }
        unfold kept. cbn [w_next w_done w_phase].
        destruct r; simpl in *; repeat split; trivial; solve_err.
      * intros b s1 H. apply triple_ret. exact H.
      * intros e s1 H. exact H.
      * intros x s1 H. exact H.
    + intros r s1 (Hn & Hd & Hp). repeat split; try assumption.
      destruct r; try assumption. split; [apply Hp | solve_err].
  - intros r s1 (Hn & Hd & Hp). repeat split; try assumption.
    destruct r as [u|e|x]; try assumption.
    destruct (Hh e) as (e' & -> & He'). split; [apply Hp | exact He'].
Qed.

Lemma erase_wmon (a : Z) (done : list Z) (h : error -> res unit) :
  0 <= a < 2 ^ 24 ->
  (forall e, exists e', h e = Err e' /\ device_error e' = true) ->
  triple wstep (mkW WEraseEnabled a done)
         (on_err (spi (0x20 :: addr_bytes a) 0 ;;; ret tt) h)
         (kept WErasing a done).
Proof.
  intros Ha Hh. eapply triple_on_err with (Q1 := kept WErasing a done).
  - eapply triple_bind with (Q1 := kept WErasing a done).
    + apply triple_spi; [lia|]. intros r Hr. eexists. split.
      { apply wstep_erase. exact Ha. }
      unfold kept. cbn [w_next w_done w_phase].
      destruct r; simpl in *; repeat split; trivial; solve_err.
    + intros b s1 H. apply triple_ret. exact H.
    + intros e s1 H. exact H.
    + intros x s1 H. exact H.
  - intros r s1 (Hn & Hd & Hp). repeat split; try assumption.
    destruct r as [u|e|x]; try assumption.
    destruct (Hh e) as (e' & -> & He'). split; [apply Hp | exact He'].
Qed.

(** The state of the monitor after the loop of [Write]: the bytes
    programmed are the part of [data] between [offset] and the point
    reached, and on success the loop is between chunks at the end. *)
Definition loop_post (address offset n : Z) (data done : list Z)
  (r : res unit) (s : wstate) : Prop :=
  address <= w_next s <= address + n /\
  w_done s = done ++ slice data offset (offset + (w_next s - address)) /\
  match r with
  | Ok _ => w_phase s = WReady /\ w_next s = address + n
  | Err e => w_phase s <> WReady /\ device_error e = true
  | Exit _ => False
  end.

Lemma loop_post_here (address offset n : Z) (data done : list Z)
  (r : res unit) (ph : wphase) :
  0 <= n ->
  match r with
  | Ok _ => ph = WReady /\ n = 0
  | Err e => ph <> WReady /\ device_error e = true
  | Exit _ => False
  end ->
  loop_post address offset n data done r (mkW ph address done).
Proof.
  intros Hn Hr. unfold loop_post. cbn [w_next w_done w_phase].
  rewrite Z.sub_diag, (Z.add_0_r offset), slice_empty, app_nil_r.
  repeat split; try lia. destruct r; try assumption.
  destruct Hr. split; [assumption | lia].
Qed.

Lemma kept_fail {A : Type} (address offset n : Z) (data done : list Z)
  (ph : wphase) (e : error) (s : wstate) :
  0 <= n -> kept (A := A) ph address done (Err e) s ->
  loop_post address offset n data done (Err e) s.
Proof.
  intros Hn (Hnx & Hd & He). destruct s as [p nx dn]. simpl in *. subst.
  apply loop_post_here; assumption.
Qed.

Lemma Write_loop_unfold (fuel : nat) (address offset n : Z) (data : list Z) :
  Write_loop fl (S fuel) address offset n data
  = if n >? 0 then
      (if Z.land address 0xfff =? 0 then
         let cmd := 0x20 :: addr_bytes address in
         on_err writeEnable (fun e => Err (ErrEraseEnable address e)) ;;;
         on_err (spi cmd 0 ;;; ret tt) (fun e => Err (ErrEraseFailed address e)) ;;;
         on_err (await fl flashWIP 0 (latency fl)) (fun e => Err (ErrSectorErase e))
       else ret tt) ;;;
      let delta := n in
      let delta := if delta >? 8 then 8 else delta in
      let cmd := 0x02 :: addr_bytes address in
      on_err writeEnable (fun _ => Err (ErrProgramEnable address)) ;;;
      spi (cmd ++ slice data offset (Int.add offset delta)) 0 ;;;
      on_err (await fl flashWIP 0 (latency fl)) (fun e => Err (ErrSectorErase e)) ;;;
      Write_loop fl fuel (Int.add address delta) (Int.add offset delta)
                 (Int.sub n delta) data
    else ret tt.
Proof. reflexivity. Qed.

Ltac err_handler :=
  let e := fresh "e" in
  intros e; eexists; split; [reflexivity | solve_err].

Lemma Write_loop_wmon (fuel : nat) :
  forall (address offset n : Z) (data done : list Z),
    0 <= address -> address + n <= romSize ->
    0 <= offset -> offset + n = len data -> len data <= 2 ^ 60 ->
    0 <= n -> n mod 8 = 0 -> address mod 8 = 0 ->
    (Z.to_nat n <= fuel)%nat ->
    triple wstep (mkW WReady address done)
           (Write_loop fl fuel address offset n data)
           (loop_post address offset n data done).
Proof.
  unfold romSize.
  induction fuel as [|fuel IH];
    intros address offset n data done Ha Hr Ho Hlen Hbig Hn Hn8 Ha8 Hf.
  - assert (n = 0) by lia. subst n. simpl. apply triple_ret.
    apply loop_post_here; [lia | split; reflexivity].
  - rewrite Write_loop_unfold. destruct (Z.gtb_spec n 0) as [Hpos|Hle].
    2:{ assert (n = 0) by lia. subst n. apply triple_ret.
        apply loop_post_here; [lia | split; reflexivity]. }
    assert (Hn8' : 8 <= n) by (Z.to_euclidean_division_equations; lia).
    assert (Ha24 : 0 <= address < 2 ^ 24) by lia.
    cbv zeta.
    replace (if n >? 8 then 8 else n) with 8
      by (destruct (Z.gtb_spec n 8); lia).
    rewrite !add_small, sub_small by (apply in_range_small; lia).
    rewrite land_fff.
    set (ready := if address mod 4096 =? 0 then WErased else WReady).
    eapply triple_bind with (Q1 := kept ready address done).
    + unfold ready. destruct (address mod 4096 =? 0) eqn:Hal.
      * eapply triple_bind with (Q1 := kept WEraseEnabled address done).
        { eapply triple_conseq.
          - apply enable_wmon; [left; reflexivity | err_handler].
          - cbv beta. rewrite Hal. auto. }
        { intros [] s1 (Hnx & Hd & Hp). destruct s1 as [p nx dn].
          simpl in *. subst.
          eapply triple_bind with (Q1 := kept WErasing address done).
          - apply erase_wmon; [assumption | err_handler].
          - intros [] s1 (Hnx & Hd & Hp). destruct s1 as [p nx dn].
            simpl in *. subst.
            apply await_wmon; [left; split; reflexivity | err_handler].
          - intros e s1 H. exact H.
          - intros x s1 H. exact H. }
        { intros e s1 H. exact H. }
        { intros x s1 H. exact H. }
      * apply triple_ret. repeat split.
    + intros [] s1 (Hnx & Hd & Hp). destruct s1 as [p nx dn].
      simpl in *. subst.
      eapply triple_bind with (Q1 := kept WProgEnabled address done).
      { eapply triple_conseq.
        - apply enable_wmon with (ph := ready);
            [unfold ready; destruct (address mod 4096 =? 0); auto
            | err_handler].
        - cbv beta. unfold ready. destruct (address mod 4096 =? 0); auto. }
      { intros [] s1 (Hnx & Hd & Hp). destruct s1 as [p nx dn].
        simpl in *. subst.
        set (payload := slice data offset (offset + 8)).
        assert (Hpl : len payload = 8)
          by (unfold payload; rewrite slice_len; lia).
        eapply triple_bind with
          (Q1 := fun r s =>
                   kept WProgramming (address + 8) (done ++ payload) r s).
        - apply triple_spi; [lia|]. intros r Hok. eexists. split.
          + apply wstep_program; try lia.
            rewrite Hpl. Z.to_euclidean_division_equations. lia.
          + unfold kept. cbn [w_next w_done w_phase]. rewrite Hpl.
            destruct r as [b|e|x]; simpl in *; repeat split; solve_err.
        - intros b s1 (Hnx & Hd & Hp). destruct s1 as [p nx dn].
          simpl in *. subst.
          eapply triple_bind with
            (Q1 := kept WReady (address + 8) (done ++ payload)).
          + apply await_wmon; [right; split; reflexivity | err_handler].
          + intros [] s1 (Hnx & Hd & Hp). destruct s1 as [p nx dn].
            simpl in *. subst.
            eapply triple_conseq.
            * apply IH; try lia.
              Z.to_euclidean_division_equations. lia.
              Z.to_euclidean_division_equations. lia.
            * intros r s1 (Hb & Hdone & Hres). unfold loop_post.
              split; [lia|]. split.
              { rewrite Hdone, <- app_assoc. f_equal. unfold payload.
                rewrite slice_app by lia. f_equal. lia. }
              { destruct r; try assumption. destruct Hres. split; [assumption|lia]. }
          + intros e s1 (Hnx & Hd & He). destruct s1 as [p nx dn].
            simpl in *. subst. unfold loop_post. cbn [w_next w_done w_phase].
            split; [lia|]. split; [|assumption].
            f_equal. unfold payload. f_equal. lia.
          + intros x s1 (Hnx & Hd & He). contradiction.
        - intros e s1 (Hnx & Hd & He). destruct s1 as [p nx dn].
          simpl in *. subst. unfold loop_post. cbn [w_next w_done w_phase].
          split; [lia|]. split; [|assumption].
          f_equal. unfold payload. f_equal. lia.
        - intros x s1 (Hnx & Hd & He). contradiction. }
      { intros e s1 H. eapply kept_fail; [lia | exact H]. }
      { intros x s1 (Hnx & Hd & He). contradiction. }
    + intros e s1 H. eapply kept_fail; [lia | exact H].
    + intros x s1 (Hnx & Hd & He). contradiction.
Qed.

End Writer.

(** ** What the monitor of the writer says about the programmed bytes *)

Lemma number_from_app (a : Z) (l1 l2 : list Z) :
  number_from a (l1 ++ l2) = number_from a l1 ++ number_from (a + len l1) l2.
Proof.
  revert a. induction l1 as [|x l1 IH]; intros a; simpl.
  - unfold len. simpl. now rewrite Z.add_0_r.
  - rewrite IH. do 3 f_equal. unfold len. simpl length. lia.
Qed.

Lemma single_opcode (c ex : Z) (r : option (list Z)) (op : Z) :
  (c =? op) = true -> op <> 0x02 ->
  (opcode (mkEvent [c] ex r) =? 0x02) = false.
Proof.
  intros Hc Hop. apply Z.eqb_eq in Hc. subst. unfold opcode. simpl.
  now apply Z.eqb_neq.
Qed.

(** One accepted exchange either is a page program at the expected
    address, whose payload is added to the bytes done, or leaves them
    alone. *)
Lemma wstep_effect (s s' : wstate) (e : Event) :
  wstep s e = Some s' ->
  if opcode e =? 0x02
  then cmd_addr (ev_cmds e) = Some (w_next s)
       /\ w_done s' = w_done s ++ skipn 4 (ev_cmds e)
       /\ w_next s' = w_next s + len (skipn 4 (ev_cmds e))
  else w_done s' = w_done s /\ w_next s' = w_next s.
Proof.
  destruct s as [ph nx dn], e as [cmds ex rp]. unfold wstep.
  cbn [w_phase w_next w_done ev_cmds ev_expect ev_reply].
  destruct ph.
  - unfold is_write_enable. cbn [ev_cmds ev_expect].
    destruct cmds as [|c [|c2 l]]; try discriminate.
    destruct (c =? 6) eqn:Hc; try discriminate.
    destruct (ex =? 0); try discriminate. simpl andb. cbv iota.
    intros [= <-]. rewrite (single_opcode c ex rp 6 Hc) by lia. now split.
  - destruct cmds as [|op [|a2 [|a1 [|a0 [|x l]]]]]; try discriminate.
    destruct (op =? 32) eqn:Hop; try discriminate.
    destruct (ex =? 0); try discriminate. simpl andb. cbv iota.
    destruct (cmd_addr _); try discriminate.
    destruct (z =? nx); try discriminate. intros [= <-].
    apply Z.eqb_eq in Hop. subst op. unfold opcode. simpl. now split.
  - unfold is_status_poll. cbn [ev_cmds ev_expect].
    destruct cmds as [|c [|c2 l]]; try discriminate.
    destruct (c =? 5) eqn:Hc; try discriminate.
    destruct (ex =? 1); try discriminate. simpl andb. cbv iota.
    intros [= <-]. rewrite (single_opcode c ex rp 5 Hc) by lia. now split.
  - unfold is_write_enable. cbn [ev_cmds ev_expect].
    destruct cmds as [|c [|c2 l]]; try discriminate.
    destruct (c =? 6) eqn:Hc; try discriminate.
    destruct (ex =? 0); try discriminate. simpl andb. cbv iota.
    intros [= <-]. rewrite (single_opcode c ex rp 6 Hc) by lia. now split.
  - destruct (opcode _ =? 2) eqn:Hop; try discriminate.
    destruct (ex =? 0); try discriminate.
    destruct (1 <=? _); try discriminate.
    destruct (_ <=? 8); try discriminate.
    destruct (_ <=? 4096); try discriminate. simpl andb. cbv iota.
    destruct (cmd_addr cmds) as [a|]; try discriminate.
    destruct (Z.eqb_spec a nx); try discriminate. intros [= <-].
    subst a. cbn [w_done w_next]. repeat split.
  - unfold is_status_poll. cbn [ev_cmds ev_expect].
    destruct cmds as [|c [|c2 l]]; try discriminate.
    destruct (c =? 5) eqn:Hc; try discriminate.
    destruct (ex =? 1); try discriminate. simpl andb. cbv iota.
    intros [= <-]. rewrite (single_opcode c ex rp 5 Hc) by lia. now split.
  - discriminate.
Qed.

Lemma run_wstep_programmed (evs : list Event) :
  forall s0 s, run wstep s0 evs = Some s ->
    exists extra,
      w_done s = w_done s0 ++ extra
      /\ w_next s = w_next s0 + len extra
      /\ programmed evs = number_from (w_next s0) extra.
Proof.
  induction evs as [|e evs IH]; intros s0 s Hrun; simpl in Hrun.
  - injection Hrun as <-. exists []. rewrite app_nil_r. unfold len. simpl.
    repeat split. lia.
  - destruct (wstep s0 e) as [s1|] eqn:Hs; [|discriminate].
    destruct (IH s1 s Hrun) as (extra & Hd & Hn & Hp).
    apply wstep_effect in Hs. simpl programmed.
    destruct (opcode e =? 2).
    + destruct Hs as (Ha & Hd1 & Hn1). rewrite Ha.
      exists (skipn 4 (ev_cmds e) ++ extra).
      rewrite Hd, Hd1, Hn, Hp, number_from_app, len_app, <- app_assoc.
      repeat split; [lia|]. now rewrite Hn1.
    + destruct Hs as (Hd1 & Hn1). exists extra.
      rewrite Hd, Hd1, Hn, Hp, Hn1. repeat split.
Qed.

(** ** The flash writer: the claims *)

(** How a call ended: [ok] of the value it returned, or [err] of the error
    it returned; it did not leave the process. *)
Definition outcome {A : Type} (r : res A) (ok : A -> Prop)
  (err : error -> Prop) : Prop :=
  match r with
  | Ok a => ok a
  | Err e => err e
  | Exit _ => False
  end.

(** Spec, Flash Writer, padding: the data extended with [0xFF] fill bytes
    up to the next sector boundary. *)
Definition padded (data : list Z) : list Z :=
  data ++ repeat 0xff (Z.to_nat (fill_len data)).

Lemma len_padded (data : list Z) : len (padded data) = len data + fill_len data.
Proof.
  unfold padded. rewrite len_app, len_repeat.
  destruct (fill_len_bounds data). lia.
Qed.

(** Under the alignment of the address the end of the padded data is
    inside the device exactly when the end of the data is. *)
Lemma padded_in_range (address : Z) (data : list Z) :
  address mod 4096 = 0 ->
  (address + len (padded data) <= romSize <-> address + len data <= romSize).
Proof.
  intros Ha. rewrite len_padded. unfold romSize.
  destruct (fill_len_bounds data) as [Hf Hm].
  Z.to_euclidean_division_equations. lia.
Qed.

Section WriterClaims.

Context {E : Env}.
Variable fl : Flags.

Lemma Write_in_range (address : Z) (data : list Z) :
  Z.land address 0xfff = 0 -> 0 <= address -> address + len data <= romSize ->
  Write fl address data
  = Write_loop fl (Z.to_nat (len (padded data))) address 0 (len (padded data))
               (padded data).
Proof.
  intros Hal Ha Hr. unfold Write. rewrite Hal. simpl negb. cbv iota zeta.
  assert (H0 := len_nonneg data). unfold romSize in Hr.
  rewrite pad_data_spec by (unfold Int.max_int; lia). fold (padded data).
  rewrite land_fff in Hal.
  assert (Hp := proj2 (padded_in_range address data Hal) Hr).
  assert (Hp0 := len_nonneg (padded data)). unfold romSize in *.
  rewrite add_small by (apply in_range_small; lia).
  replace (address <? 0) with false by (symmetry; apply Z.ltb_ge; lia).
  replace (address + len (padded data) >? 2 * 1024 * 1024) with false
    by (symmetry; rewrite Z.gtb_ltb; apply Z.ltb_ge; lia).
  reflexivity.
Qed.

Lemma Write_wmon (address : Z) (data : list Z) :
  Z.land address 0xfff = 0 -> 0 <= address -> address + len data <= romSize ->
  triple wstep (mkW WReady address []) (Write fl address data)
         (loop_post address 0 (len (padded data)) (padded data) []).
Proof.
  intros Hal Ha Hr. rewrite Write_in_range by assumption.
  rewrite land_fff in Hal.
  assert (Hp := proj2 (padded_in_range address data Hal) Hr).
  assert (Hp0 := len_nonneg (padded data)).
  assert (Hm : len (padded data) mod 4096 = 0)
    by (rewrite len_padded; apply fill_len_bounds).
  unfold romSize in *.
  apply Write_loop_wmon; unfold romSize; try lia.
  - Z.to_euclidean_division_equations. lia.
  - Z.to_euclidean_division_equations. lia.
Qed.

(** C1. For every call of [Write] on a sector-aligned, in-range address and
    every behaviour of the device, the exchanges are accepted one after the
    other by the monitor [wstep] started at the address: at a multiple of
    4096 a write-enable, the sector erase at that address and a wait that
    ends with the busy bit clear come before the next page program; every
    page program carries 1 to 8 bytes at exactly the next address, inside
    the erased sector, follows a write-enable and is followed by a wait;
    nothing follows a failed exchange.  When [Write] succeeds the monitor
    is between chunks at the end of the padded data; when it fails it is
    inside a chunk; [Write] never leaves the process. *)
Theorem Write_command_order (address : Z) (data : list Z) (t : T) :
  Z.land address 0xfff = 0 -> 0 <= address -> address + len data <= romSize ->
  exists s,
    run wstep (mkW WReady address []) (events (Write fl address data t)) = Some s
    /\ address <= w_next s <= address + len data + fill_len data
    /\ outcome (result (Write fl address data t))
               (fun _ => w_phase s = WReady
                         /\ w_next s = address + len data + fill_len data)
               (fun e => w_phase s <> WReady /\ device_error e = true).
Proof.
  intros Hal Ha Hr.
  destruct (Write_wmon address data Hal Ha Hr t) as (s & Hrun & Hb & Hd & Hres).
  rewrite len_padded in *. exists s. repeat split; try assumption; try lia.
  unfold outcome. destruct (result _); try assumption.
  destruct Hres. split; [assumption | lia].
Qed.

(** C6. The padding step of [Write] extends the data with bytes [0xFF],
    fewer than 4096 of them, to a multiple of 4096 (and leaves data of
    such a length alone).  On a sector-aligned, in-range address the
    page-program commands carry a prefix of the padded data, byte [i] at
    [address + i], and all of it when [Write] succeeds; so writing one
    byte [b] programs [b] at the address and [0xFF] at the 4095 addresses
    that follow. *)
Theorem Write_pads_with_ff (address : Z) (data : list Z) (t : T) :
  Z.land address 0xfff = 0 -> 0 <= address -> address + len data <= romSize ->
  pad_data data = data ++ repeat 0xff (Z.to_nat (fill_len data))
  /\ 0 <= fill_len data < 4096
  /\ (len data + fill_len data) mod 4096 = 0
  /\ (len data mod 4096 = 0 -> pad_data data = data)
  /\ (exists k, programmed (events (Write fl address data t))
                = number_from address (firstn k (padded data)))
  /\ (result (Write fl address data t) = Ok tt ->
      programmed (events (Write fl address data t))
      = number_from address (padded data))
  /\ (forall b, data = [b] ->
      result (Write fl address data t) = Ok tt ->
      programmed (events (Write fl address data t))
      = (address, b) :: number_from (address + 1) (repeat 0xff 4095)).
Proof.
  intros Hal Ha Hr. assert (H0 := len_nonneg data).
  assert (Hpad : pad_data data = padded data)
    by (apply pad_data_spec; unfold romSize, Int.max_int in *; lia).
  destruct (fill_len_bounds data) as [Hf Hm].
  destruct (Write_wmon address data Hal Ha Hr t) as (s & Hrun & Hb & Hd & Hres).
  destruct (run_wstep_programmed _ _ _ Hrun) as (extra & Hx & Hn & Hp).
  cbn [w_done w_next] in Hx, Hn, Hp. cbn [app] in Hd, Hx.
  assert (Hall : result (Write fl address data t) = Ok tt ->
                 programmed (events (Write fl address data t))
                 = number_from address (padded data)).
  { intros Hok. rewrite Hok in Hres. destruct Hres as [_ Hend].
    rewrite Hp, <- Hx, Hd. f_equal. unfold slice.
    rewrite Z.add_0_l, Z.sub_0_r. simpl skipn. apply firstn_all2.
    rewrite Hend. replace (address + len (padded data) - address)
      with (len (padded data)) by lia.
    rewrite to_nat_len. lia. }
  split; [exact Hpad|]. split; [exact Hf|]. split; [exact Hm|].
  split.
  { intros Hz. rewrite Hpad. unfold padded, fill_len. rewrite Hz. simpl.
    apply app_nil_r. }
  split.
  { exists (Z.to_nat (w_next s - address)).
    rewrite Hp, <- Hx, Hd. unfold slice.
    rewrite Z.add_0_l, Z.sub_0_r. reflexivity. }
  split; [exact Hall|].
  intros b -> Hok. rewrite (Hall Hok). unfold padded.
  replace (fill_len [b]) with 4095 by reflexivity.
  replace (Z.to_nat 4095) with 4095%nat by (vm_compute; reflexivity).
  generalize (repeat 255 4095). intros l. reflexivity.
Qed.

(** C10. [Write] of an empty slice at a non-negative, sector-aligned
    address inside the device succeeds without any exchange with the
    device and leaves the state of the port as it was. *)
Theorem Write_empty (address : Z) (t : T) :
  Z.land address 0xfff = 0 -> 0 <= address <= romSize ->
  Write fl address [] t = (t, [], Ok tt).
Proof.
  intros Hal Ha. unfold Write. rewrite Hal. simpl negb. cbv iota.
  unfold pad_data. simpl. unfold romSize in *.
  rewrite add_small by (apply in_range_small; change (len []) with 0; lia).
  change (@len Z []) with 0. rewrite Z.add_0_r.
  replace (address <? 0) with false by (symmetry; apply Z.ltb_ge; lia).
  replace (address >? 2 * 1024 * 1024) with false
    by (symmetry; rewrite Z.gtb_ltb; apply Z.ltb_ge; lia).
  reflexivity.
Qed.

End WriterClaims.

(** ** Properties of every exchange of a run *)

Section Emits.

Context {E : Env}.

(** Every exchange [m] performs satisfies [P]. *)
Definition emits {A : Type} (P : Event -> Prop) (m : M A) : Prop :=
  forall t, Forall P (events (m t)).

Variable P : Event -> Prop.

Lemma emits_ret {A : Type} (a : A) : emits P (ret a).
Proof. intros t. constructor. Qed.

Lemma emits_fail {A : Type} (e : error) : emits P (fail (A := A) e).
Proof. intros t. constructor. Qed.

Lemma emits_fatal {A : Type} (x : exit) : emits P (fatal (A := A) x).
Proof. intros t. constructor. Qed.

Lemma emits_lift {A : Type} (r : res A) : emits P (lift r).
Proof. intros t. constructor. Qed.

Lemma emits_bind {A B : Type} (m : M A) (f : A -> M B) :
  emits P m -> (forall a, emits P (f a)) -> emits P (bind m f).
Proof.
  intros Hm Hf t. unfold bind. specialize (Hm t).
  destruct (m t) as [[t1 e1] r]. unfold events in *. simpl in *.
  destruct r as [a|e|x]; try assumption.
  specialize (Hf a t1). destruct (f a t1) as [[t2 e2] r2]. simpl in *.
  apply Forall_app. split; assumption.
Qed.

Lemma emits_on_err {A : Type} (m : M A) (h : error -> res A) :
  emits P m -> emits P (on_err m h).
Proof.
  intros Hm t. unfold on_err. specialize (Hm t).
  destruct (m t) as [[t1 e1] r]. unfold events in *. simpl in *.
  destruct r; assumption.
Qed.

Lemma emits_spi (cmds : list Z) (expect : Z) :
  0 <= expect ->
  (forall r, spi_ok expect r -> P (mkEvent cmds expect (reply_of r))) ->
  emits P (spi cmds expect).
Proof.
  intros He H t. unfold spi.
  assert (Hok := spi_term_ok cmds expect t He).
  destruct (spi_term cmds expect t) as [t1 r]. simpl in Hok.
  unfold events. simpl. constructor; [apply H; exact Hok | constructor].
Qed.

End Emits.

Lemma emits_weaken {E : Env} {A : Type} (P Q : Event -> Prop) (m : M A) :
  (forall e, P e -> Q e) -> emits P m -> emits Q m.
Proof.
  intros H Hm t. eapply Forall_impl; [exact H | apply Hm].
Qed.

(** A monitor that never refuses the exchanges of [m] and is not moved by
    them stays where it is. *)
Lemma triple_emits {E : Env} {St A : Type} (step : St -> Event -> option St)
  (P : Event -> Prop) (s : St) (m : M A) :
  emits P m -> (forall e, P e -> step s e = Some s) ->
  triple step s m (fun _ s' => s' = s).
Proof.
  intros Hm Hs t. specialize (Hm t). exists s. split; [|reflexivity].
  induction Hm as [|e l He _ IH]; simpl; [reflexivity|].
  now rewrite (Hs e He).
Qed.

(** ** The flash reader *)

Lemma read_plan_fuel (f1 : nat) :
  forall (f2 : nat) (a n : Z),
    (Z.to_nat n <= f1)%nat -> (Z.to_nat n <= f2)%nat ->
    read_plan f1 a n = read_plan f2 a n.
Proof.
  induction f1 as [|f1 IH]; intros f2 a n H1 H2.
  - destruct f2 as [|f2]; [reflexivity|]. cbn [read_plan].
    destruct (Z.leb_spec n 0); [reflexivity | lia].
  - destruct f2 as [|f2]; cbn [read_plan].
    + destruct (Z.leb_spec n 0); [reflexivity | lia].
    + destruct (Z.leb_spec n 0); [reflexivity|].
      assert (Hm := Z.mod_pos_bound a 16 ltac:(lia)).
      f_equal. apply IH; lia.
Qed.

Lemma plan_step (a n : Z) :
  0 < n ->
  plan a n = (a, Z.min (16 - a mod 16) n)
               :: plan (a + Z.min (16 - a mod 16) n)
                       (n - Z.min (16 - a mod 16) n).
Proof.
  intros Hn. unfold plan at 1.
  destruct (Z.to_nat n) as [|k] eqn:Hk; [lia|]. cbn [read_plan].
  destruct (Z.leb_spec n 0); [lia|]. f_equal.
  assert (Hm := Z.mod_pos_bound a 16 ltac:(lia)).
  apply read_plan_fuel; lia.
Qed.

Lemma plan_done (a n : Z) : n <= 0 -> plan a n = [].
Proof.
  intros Hn. unfold plan. replace (Z.to_nat n) with O by lia. reflexivity.
Qed.

Lemma plan_windows (fuel : nat) :
  forall a n, Forall in_window (read_plan fuel a n).
Proof.
  induction fuel as [|fuel IH]; intros a n; cbn [read_plan]; [constructor|].
  destruct (Z.leb_spec n 0); constructor; [|apply IH].
  unfold in_window. assert (Hm := Z.mod_pos_bound a 16 ltac:(lia)).
  split; [lia|]. Z.to_euclidean_division_equations. lia.
Qed.

Lemma plan_contiguous (fuel : nat) :
  forall a n, 0 <= n -> (Z.to_nat n <= fuel)%nat ->
              contiguous a (read_plan fuel a n) (a + n).
Proof.
  induction fuel as [|fuel IH]; intros a n Hn Hf; cbn [read_plan].
  - cbn [contiguous]. lia.
  - destruct (Z.leb_spec n 0); cbn [contiguous]; [lia|].
    assert (Hm := Z.mod_pos_bound a 16 ltac:(lia)).
    split; [reflexivity|]. split; [lia|].
    replace (a + n) with (a + Z.min (16 - a mod 16) n
                          + (n - Z.min (16 - a mod 16) n)) by lia.
    apply IH; lia.
Qed.

(** The shape of the read-at-address command: opcode, address, and a
    fifth byte that is zero. *)
Definition read_cmd (address : Z) : list Z := 0x0B :: addr_bytes address ++ [0].

Lemma rstep_read (a d : Z) (rest : list (Z * Z)) (got : list Z)
  (r : res (list Z)) :
  0 <= a < 2 ^ 24 -> spi_ok d r ->
  rstep (Some ((a, d) :: rest, got)) (mkEvent (read_cmd a) d (reply_of r))
  = Some (match r with Ok b => Some (rest, got ++ b) | _ => None end).
Proof.
  intros Ha Hr. unfold rstep, read_cmd.
  cbn [ev_cmds ev_expect ev_reply].
  rewrite (cmd_addr_bytes 0x0B a [0] Ha). unfold opcode. cbn [ev_cmds nth].
  rewrite !Z.eqb_refl. simpl andb. cbv iota.
  destruct r as [b|e|x]; simpl in *; try reflexivity.
  destruct Hr as [-> _]. now rewrite Z.eqb_refl.
Qed.

Section Reader.

Context {E : Env}.

Lemma Read_loop_unfold (fuel : nat) (address n : Z) (result : list Z) :
  Read_loop (S fuel) address n result
  = if n >? 0 then
      let cmd := 0x0B :: addr_bytes address ++ [0] in
      let offset := Z.land address 15 in
      let delta := Int.sub 16 offset in
      let delta := if delta >? n then n else delta in
      d <- spi cmd (Int.uint delta) ;;
      Read_loop fuel (Int.add address delta) (Int.sub n delta) (result ++ d)
    else ret result.
Proof. reflexivity. Qed.

(** The size of one request of the reader. *)
Lemma Read_delta (address n : Z) :
  0 < n ->
  (if Int.sub 16 (Z.land address 15) >? n then n
   else Int.sub 16 (Z.land address 15))
  = Z.min (16 - address mod 16) n.
Proof.
  intros Hn. rewrite land_15.
  assert (Hm := Z.mod_pos_bound address 16 ltac:(lia)).
  rewrite sub_small by (apply in_range_small; lia).
  destruct (Z.gtb_spec (16 - address mod 16) n); lia.
Qed.

Definition read_post (n0 : Z) (r : res (list Z)) (s : rstate) : Prop :=
  match r with
  | Ok d => s = Some ([], d) /\ len d = n0
            /\ Forall (fun b => 0 <= b < 256) d
  | Err e => s = None /\ device_error e = true
  | Exit _ => False
  end.

Lemma Read_loop_rmon (fuel : nat) :
  forall (address n : Z) (result : list Z),
    0 <= address -> 0 <= n -> address + n <= romSize ->
    Forall (fun b => 0 <= b < 256) result ->
    (Z.to_nat n <= fuel)%nat ->
    triple rstep (Some (plan address n, result))
           (Read_loop fuel address n result)
           (read_post (len result + n)).
Proof.
  unfold romSize.
  induction fuel as [|fuel IH]; intros address n result Ha Hn Hr Hb Hf.
  - assert (n = 0) by lia. subst n. simpl. apply triple_ret.
    rewrite plan_done by lia. split; [reflexivity | split; [lia | exact Hb]].
  - rewrite Read_loop_unfold. destruct (Z.gtb_spec n 0) as [Hpos|Hle].
    2:{ assert (n = 0) by lia. subst n. apply triple_ret.
        rewrite plan_done by lia.
        split; [reflexivity | split; [lia | exact Hb]]. }
    cbv zeta. rewrite Read_delta by assumption.
    assert (Hm := Z.mod_pos_bound address 16 ltac:(lia)).
    set (delta := Z.min (16 - address mod 16) n).
    assert (Hd : 1 <= delta <= 16 /\ delta <= n) by (unfold delta; lia).
    replace (Int.uint delta) with delta
      by (unfold Int.uint; rewrite Z.mod_small; lia).
    rewrite add_small, sub_small by (apply in_range_small; lia).
    rewrite plan_step by assumption. fold delta.
    eapply triple_bind with
      (Q1 := fun r s =>
               match r with
               | Ok d => s = Some (plan (address + delta) (n - delta),
                                   result ++ d) /\ len d = delta
                         /\ Forall (fun b => 0 <= b < 256) d
               | Err e => s = None /\ device_error e = true
               | Exit _ => False
               end).
    + apply triple_spi; [lia|]. intros r Hok. eexists. split.
      * apply rstep_read; [lia | exact Hok].
      * destruct r as [b|e|x]; simpl in *; [|auto|auto].
        split; [reflexivity | exact Hok].
    + intros d s1 (-> & Hlen & Hbd). eapply triple_conseq.
      * apply IH; try lia. apply Forall_app. split; assumption.
      * intros r s1 Hpost. rewrite len_app, Hlen in Hpost.
        replace (len result + n) with (len result + delta + (n - delta))
          by lia.
        exact Hpost.
    + intros e s1 H. exact H.
    + intros x s1 H. exact H.
Qed.

Lemma Read_rmon (address n : Z) :
  0 <= address -> 0 <= n -> address + n <= romSize ->
  triple rstep (Some (plan address n, [])) (Read address n) (read_post n).
Proof.
  intros Ha Hn Hr. unfold Read. unfold romSize in *.
  rewrite add_small by (apply in_range_small; lia).
  replace (address <? 0) with false by (symmetry; apply Z.ltb_ge; lia).
  replace (address + n >? 2 * 1024 * 1024) with false
    by (symmetry; rewrite Z.gtb_ltb; apply Z.ltb_ge; lia).
  simpl orb. cbv iota.
  apply (Read_loop_rmon (Z.to_nat n) address n []); unfold romSize;
    try lia. constructor.
Qed.

(** C2. For [0 <= address], a length [n >= 0] and [address + n] inside
    the 2 MiB device, the exchanges of [Read address n] are the requests
    of the plan, in order, as long as the device answers: the step at
    address [a] with [r] bytes remaining asks for [min (16 - a mod 16) r]
    bytes at [a].  No request is for more than 16 bytes or leaves its
    16-byte window, the requests lie one after the other from [address] to
    [address + n], and [Read] returns the replies concatenated in order,
    [n] bytes in all; it fails only when an exchange with the device
    fails. *)
Theorem Read_chunks (address n : Z) (t : T) :
  0 <= address -> 0 <= n -> address + n <= romSize ->
  (exists s,
      run rstep (Some (plan address n, [])) (events (Read address n t)) = Some s
      /\ match result (Read address n t) with
         | Ok d => s = Some ([], d) /\ len d = n
                   /\ Forall (fun b => 0 <= b < 256) d
         | Err e => s = None /\ device_error e = true
         | Exit _ => False
         end)
  /\ Forall in_window (plan address n)
  /\ contiguous address (plan address n) (address + n).
Proof.
  intros Ha Hn Hr. split; [|split].
  - exact (Read_rmon address n Ha Hn Hr t).
  - apply plan_windows.
  - apply plan_contiguous; lia.
Qed.

End Reader.

(** What one exchange of the reader looks like. *)
Definition read_exchange (e : Event) : Prop :=
  (exists a, ev_cmds e = 0x0B :: addr_bytes a ++ [0])
  /\ len (ev_cmds e) = 5
  /\ 1 <= ev_expect e <= 16
  /\ match ev_reply e with
     | Some b => len b = ev_expect e
     | None => True
     end.

Section ReaderShape.

Context {E : Env}.

Lemma Read_loop_emits (fuel : nat) :
  forall (address n : Z) (result : list Z),
    emits read_exchange (Read_loop fuel address n result).
Proof.
  induction fuel as [|fuel IH]; intros address n result.
  - simpl. destruct (n >? 0); [apply emits_fail | apply emits_ret].
  - rewrite Read_loop_unfold. destruct (Z.gtb_spec n 0) as [Hpos|Hle];
      [|apply emits_ret].
    cbv zeta. rewrite Read_delta by assumption.
    assert (Hm := Z.mod_pos_bound address 16 ltac:(lia)).
    set (delta := Z.min (16 - address mod 16) n).
    assert (Hd : 1 <= delta <= 16) by (unfold delta; lia).
    replace (Int.uint delta) with delta
      by (unfold Int.uint; rewrite Z.mod_small; lia).
    apply emits_bind; [|intros d; apply IH].
    apply emits_spi; [lia|]. intros r Hok. unfold read_exchange.
    cbn [ev_cmds ev_expect ev_reply].
    split; [exists address; reflexivity|]. split; [reflexivity|].
    split; [lia|]. destruct r; simpl in *; tauto.
Qed.

Lemma Read_emits (address n : Z) : emits read_exchange (Read address n).
Proof.
  unfold Read. destruct ((address <? 0) || (Int.add address n >? romSize)).
  - apply emits_fail.
  - apply Read_loop_emits.
Qed.

(** C8, as the code has it.  Every exchange of [Read] sends a five-byte
    command: the opcode [0x0B], the three address bytes, most significant
    first, and one more byte that is zero; it asks for 1 to 16 bytes, and
    a reply has exactly the number of bytes asked for. *)
Theorem Read_command_shape (address n : Z) (t : T) :
  Forall read_exchange (events (Read address n t)).
Proof. apply Read_emits. Qed.

End ReaderShape.

Section WriterRange.

Context {E : Env}.
Variable fl : Flags.

(** The range check of [Write] where the end address fits the machine
    integer (the part of C7 the code keeps).  At a non-negative,
    sector-aligned address, with [address + len data + 4096 <= max_int],
    [Write] returns the out-of-range error exactly when
    [address + len data] exceeds the 2 MiB of the device, and it does so
    without any exchange with the device. *)
Theorem Write_range_check (address : Z) (data : list Z) (t : T) :
  Z.land address 0xfff = 0 -> 0 <= address ->
  address + len data + 4096 <= Int.max_int ->
  (result (Write fl address data t) = Err ErrWriteOutside
   <-> romSize < address + len data)
  /\ (romSize < address + len data ->
      Write fl address data t = (t, [], Err ErrWriteOutside)).
Proof.
  intros Hal Ha Hfit. assert (H0 := len_nonneg data).
  assert (Hout : romSize < address + len data ->
                 Write fl address data t = (t, [], Err ErrWriteOutside)).
  { intros Hbig. unfold Write. rewrite Hal. simpl negb. cbv iota zeta.
    rewrite pad_data_spec by lia. fold (padded data).
    rewrite land_fff in Hal.
    assert (Hp : ~ address + len (padded data) <= romSize)
      by (rewrite padded_in_range by assumption; lia).
    assert (Hl := len_padded data). destruct (fill_len_bounds data) as [Hf _].
    rewrite add_small
      by (unfold Int.in_range, Int.min_int, Int.max_int in *; lia).
    replace (address <? 0) with false by (symmetry; apply Z.ltb_ge; lia).
    replace (address + len (padded data) >? romSize) with true
      by (symmetry; rewrite Z.gtb_ltb; apply Z.ltb_lt; lia).
    reflexivity. }
  split; [|exact Hout]. split.
  - intros Hres. destruct (Z.lt_ge_cases romSize (address + len data)) as [|Hin];
      [assumption|]. exfalso.
    destruct (Write_wmon fl address data Hal Ha Hin t) as (s & _ & _ & _ & Hpost).
    rewrite Hres in Hpost. destruct Hpost as [_ Hd]. discriminate Hd.
  - intros Hbig. now rewrite (Hout Hbig).
Qed.

End WriterRange.

(** ** Opening a session *)

Definition is_id_query (e : Event) : bool :=
  match ev_cmds e with
  | [c] => c =? 0x9F
  | _ => false
  end.

(** The replies the device gave to the JEDEC ID query, in order. *)
Definition id_replies (evs : list Event) : list (option (list Z)) :=
  map ev_reply (filter is_id_query evs).

Definition id_step (s : list (option (list Z))) (e : Event)
  : option (list (option (list Z))) :=
  Some (if is_id_query e then s ++ [ev_reply e] else s).

Lemma run_id_step (evs : list Event) :
  forall s, run id_step s evs = Some (s ++ id_replies evs).
Proof.
  induction evs as [|e evs IH]; intros s; simpl.
  - now rewrite app_nil_r.
  - rewrite IH. unfold id_replies. simpl filter.
    destruct (is_id_query e); simpl; [now rewrite <- app_assoc | reflexivity].
Qed.

Section Session.

Context {E : Env}.
Variable fl : Flags.

Lemma await_loop_emits (budget : nat) (mask desired : Z) :
  emits (fun e => ev_cmds e = [0x05]) (await_loop budget mask desired).
Proof.
  induction budget as [|budget IH]; simpl await_loop;
    (apply emits_bind;
     [ apply emits_on_err, emits_spi; [lia | reflexivity]
     | intros b; destruct (Z.land (nth 0 b 0) mask =? desired);
       [apply emits_ret|] ]).
  - apply emits_fail.
  - exact IH.
Qed.

Lemma await_emits (mask desired timeout : Z) :
  emits (fun e => ev_cmds e = [0x05]) (await fl mask desired timeout).
Proof. intros t. unfold await. apply await_loop_emits. Qed.

Lemma writeEnable_emits : emits (fun e => ev_cmds e = [0x06]) writeEnable.
Proof.
  unfold writeEnable. apply emits_on_err, emits_bind.
  - apply emits_spi; [lia | reflexivity].
  - intros; apply emits_ret.
Qed.

(** A step that does not query the ID leaves the record of ID replies
    alone; [quiet s] also says that the step does not leave the process. *)
Definition quiet {A : Type} (s : list (option (list Z))) (r : res A)
  (s' : list (option (list Z))) : Prop :=
  s' = s /\ forall x, r <> Exit x.

Lemma quiet_spi (s : list (option (list Z))) (c expect : Z) :
  0 <= expect -> c <> 0x9F ->
  triple id_step s (spi [c] expect) (quiet s).
Proof.
  intros He Hc. apply triple_spi; [assumption|]. intros r Hr. eexists.
  split; [|split; [reflexivity | intros x ->; exact Hr]].
  unfold id_step, is_id_query. cbn [ev_cmds].
  now replace (c =? 159) with false by (symmetry; apply Z.eqb_neq; lia).
Qed.

Lemma quiet_unit {A : Type} (s : list (option (list Z))) (m : M A)
  (h : error -> res unit) :
  triple id_step s m (quiet s) -> (forall e x, h e <> Exit x) ->
  triple id_step s (on_err (m ;;; ret tt) h) (quiet s).
Proof.
  intros Hm Hh. eapply triple_on_err with (Q1 := quiet s).
  - eapply triple_bind with (Q1 := quiet s).
    + exact Hm.
    + intros a s1 [-> _]. apply triple_ret. split; [reflexivity|].
      intros x; discriminate.
    + intros e s1 [-> _]. split; [reflexivity | intros x; discriminate].
    + intros x s1 [_ H]. now destruct (H x).
  - intros r s1 [-> H]. split; [reflexivity|].
    destruct r; [intros; discriminate | apply Hh | exact H].
Qed.

Lemma quiet_await_loop (s : list (option (list Z))) (budget : nat)
  (mask desired : Z) :
  triple id_step s (await_loop budget mask desired) (quiet s).
Proof.
  induction budget as [|budget IH]; simpl await_loop;
    (eapply triple_bind with (Q1 := quiet s);
     [ eapply triple_on_err with (Q1 := quiet s);
       [ apply quiet_spi; lia
       | intros r s1 [-> H]; split; [reflexivity|];
         destruct r; [intros; discriminate | intros; discriminate | exact H] ]
     | intros b s1 [-> _];
       destruct (Z.land (nth 0 b 0) mask =? desired);
       [ apply triple_ret; split; [reflexivity | intros x; discriminate] | ]
     | intros e s1 [-> _]; split; [reflexivity | intros x; discriminate]
     | intros x s1 [_ H]; now destruct (H x) ]).
  - apply triple_fail. split; [reflexivity | intros x; discriminate].
  - exact IH.
Qed.

Lemma quiet_await (s : list (option (list Z))) (mask desired timeout : Z) :
  triple id_step s (await fl mask desired timeout) (quiet s).
Proof. intros t. unfold await. apply quiet_await_loop. Qed.

Lemma read_exchange_not_id (e : Event) :
  read_exchange e -> is_id_query e = false.
Proof.
  intros [[a Ha] _]. unfold is_id_query. rewrite Ha. reflexivity.
Qed.

Lemma quiet_Read (s : list (option (list Z))) (address n : Z) :
  0 <= address -> 0 <= n -> address + n <= romSize ->
  triple id_step s (Read address n) (quiet s).
Proof.
  intros Ha Hn Hr t.
  assert (Hq : forall e, read_exchange e -> id_step s e = Some s).
  { intros e He. unfold id_step. now rewrite (read_exchange_not_id e He). }
  destruct (triple_emits id_step read_exchange s (Read address n)
              (Read_emits address n) Hq t) as (s' & Hrun & ->).
  exists s. split; [exact Hrun|]. split; [reflexivity|].
  destruct (Read_rmon address n Ha Hn Hr t) as (s2 & _ & Hpost).
  intros x Hx. rewrite Hx in Hpost. exact Hpost.
Qed.

(** What [reset] leaves in the record of ID replies. *)
Definition reset_post (r : res unit) (s : list (option (list Z))) : Prop :=
  match r with
  | Ok _ => s = [Some [0xC8; 0x40; 0x15]]
  | Err _ => True
  | Exit _ => False
  end.

Ltac quiet_fail :=
  first [ intros ? ? [_ ?]; exact I
        | intros ? ? _; exact I
        | let x := fresh in let H := fresh in
          intros x ? [_ H]; now destruct (H x) ].

Lemma reset_ids : triple id_step [] (reset fl) reset_post.
Proof.
  unfold reset.
  eapply triple_bind with (Q1 := quiet []); [| |quiet_fail|quiet_fail].
  { destruct (reset_flag fl).
    - eapply triple_bind with (Q1 := quiet []).
      + apply quiet_unit; [apply quiet_spi; lia | intros; discriminate].
      + intros _ s1 [-> _].
        apply quiet_unit; [apply quiet_spi; lia | intros; discriminate].
      + intros e s1 H. exact H.
      + intros x s1 H. exact H.
    - apply triple_ret. split; [reflexivity | intros x; discriminate]. }
  intros _ s1 [-> _].
  eapply triple_bind with (Q1 := quiet []); [| |quiet_fail|quiet_fail].
  { apply quiet_spi; lia. }
  intros _ s1 [-> _].
  eapply triple_bind with
    (Q1 := fun r s => s = [reply_of r] /\ spi_ok 3 r);
    [| |quiet_fail|intros x s1 [_ H]; exact H].
  { apply triple_spi; [lia|]. intros r Hr. eexists.
    split; [reflexivity|]. split; [reflexivity | exact Hr]. }
  intros b s1 [-> [Hlen _]]. cbn [reply_of].
  destruct b as [|b0 [|b1 [|b2 [|b3 b]]]];
    try (exfalso; unfold len in Hlen; simpl length in Hlen; lia).
  cbn [nth].
  destruct (Z.eqb_spec b0 0xC8) as [-> | Hb0]; simpl negb; cbv iota;
    [|apply triple_fail; exact I].
  destruct (Z.eqb_spec b1 0x40) as [-> | Hb1]; simpl negb; simpl orb;
    [|apply triple_fail; exact I].
  destruct (Z.eqb_spec b2 0x15) as [-> | Hb2]; simpl negb; cbv iota;
    [|apply triple_fail; exact I].
  set (ids := [Some [200; 64; 21]]).
  eapply triple_bind with (Q1 := quiet ids); [| |quiet_fail|quiet_fail].
  { eapply triple_on_err with (Q1 := quiet ids).
    - apply quiet_await.
    - intros r s1 [-> H]. split; [reflexivity|].
      destruct r; [intros; discriminate | intros; discriminate | exact H]. }
  intros _ s1 [-> _].
  eapply triple_bind with (Q1 := quiet ids); [| |quiet_fail|quiet_fail].
  { apply quiet_unit; [|intros; discriminate].
    apply quiet_Read; unfold romSize; lia. }
  intros _ s1 [-> _]. apply triple_ret. reflexivity.
Qed.

(** C9. A session is opened only on the supported chip: when [NewQF]
    returns without error, the device was asked for its JEDEC ID exactly
    once and answered [0xC8, 0x40, 0x15], and the caller gets the port;
    whenever the device has reported any other ID, [NewQF] returns an
    error, with the port closed. *)
Theorem NewQF_checks_id (dev : string) :
  let '(ot, evs, r) := NewQF fl dev in
  (r = Ok tt ->
   id_replies evs = [Some [0xC8; 0x40; 0x15]] /\ exists t, ot = Some t)
  /\ (forall b, In (Some b) (id_replies evs) -> b <> [0xC8; 0x40; 0x15] ->
      exists e t, r = Err e /\ ot = Some (term_Close t)).
Proof.
  unfold NewQF. destruct (term_Open dev) as [t|].
  2:{ split; [discriminate | intros b []]. }
  destruct (reset_ids t) as (s & Hrun & Hpost).
  rewrite run_id_step in Hrun. injection Hrun as <-. simpl app in Hpost.
  destruct (reset fl t) as [[t1 ev] r]. unfold events, result in *.
  simpl in Hpost. destruct r as [[]|e|x]; simpl in Hpost.
  - split.
    + intros _. split; [exact Hpost | now exists t1].
    + intros b Hin Hne. rewrite Hpost in Hin.
      destruct Hin as [[= <-] | []]. now destruct Hne.
  - split; [discriminate|]. intros b _ _. exists e, t1. now split.
  - contradiction.
Qed.

End Session.

(** ** The metadata codec *)

Lemma land_shiftl_small (x y k : Z) :
  0 <= k -> 0 <= x < 2 ^ k -> Z.land x (Z.shiftl y k) = 0.
Proof.
  intros Hk Hx. apply Z.bits_inj'. intros n Hn.
  rewrite Z.land_spec, Z.bits_0.
  destruct (Z.lt_ge_cases n k) as [Hlt|Hge].
  - rewrite Z.shiftl_spec_low by assumption. apply andb_false_r.
  - destruct (Z.eq_dec x 0) as [->|Hx0]; [now rewrite Z.bits_0|].
    rewrite Z.bits_above_log2; [reflexivity | lia |].
    apply Z.lt_le_trans with k; [|assumption].
    apply Z.log2_lt_pow2; lia.
Qed.

Lemma lor_shiftl_add (x y k : Z) :
  0 <= k -> 0 <= x < 2 ^ k -> Z.lor x (Z.shiftl y k) = x + y * 2 ^ k.
Proof.
  intros Hk Hx. rewrite <- Z.lxor_lor, <- Z.add_nocarry_lxor
    by (apply land_shiftl_small; assumption).
  now rewrite Z.shiftl_mul_pow2.
Qed.

(** [Uint32] of four bytes is their little-endian value. *)
Lemma Uint32_value (b0 b1 b2 b3 : Z) :
  0 <= b0 < 256 -> 0 <= b1 < 256 -> 0 <= b2 < 256 -> 0 <= b3 < 256 ->
  Uint32 b0 b1 b2 b3 = b0 + b1 * 2 ^ 8 + b2 * 2 ^ 16 + b3 * 2 ^ 24.
Proof.
  intros H0 H1 H2 H3. unfold Uint32.
  rewrite (lor_shiftl_add b0 b1 8) by lia.
  rewrite (lor_shiftl_add _ b2 16) by lia.
  rewrite (lor_shiftl_add _ b3 24) by lia.
  reflexivity.
Qed.

Lemma Uint32_PutUint32 (v : Z) :
  0 <= v < 2 ^ 32 ->
  Uint32 (Int.byte v) (Int.byte (Z.shiftr v 8)) (Int.byte (Z.shiftr v 16))
         (Int.byte (Z.shiftr v 24)) = v.
Proof.
  intros Hv. unfold Int.byte. rewrite !Z.shiftr_div_pow2 by lia.
  rewrite Uint32_value by (apply Z.mod_pos_bound; lia).
  change (2 ^ 8) with 256. change (2 ^ 16) with 65536.
  change (2 ^ 24) with 16777216. change (2 ^ 32) with 4294967296 in Hv.
  Z.to_euclidean_division_equations. lia.
Qed.

(** The values a [MetaData] can hold: two [uint32] and four [uint8]. *)
Definition MetaData_ok (m : MetaData) : Prop :=
  0 <= CRC m < 2 ^ 32 /\ 0 <= Size m < 2 ^ 32
  /\ 0 <= Written m < 256 /\ 0 <= Image m < 256
  /\ 0 <= Purpose m < 256 /\ 0 <= Reserved m < 256.

(** C4. The encoding of a metadata record is twelve bytes: the CRC and
    the size as little-endian 32-bit integers, then the presence, image
    type, purpose and reserved bytes as they are; decoding the encoding
    gives the record back, whatever the values of the tag bytes and of
    the reserved byte. *)
Theorem metadata_round_trip (m : MetaData) :
  MetaData_ok m ->
  len (binary_Write m) = 12
  /\ Forall (fun b => 0 <= b < 256) (binary_Write m)
  /\ binary_Write m
     = [ CRC m mod 256; CRC m / 2 ^ 8 mod 256; CRC m / 2 ^ 16 mod 256;
         CRC m / 2 ^ 24 mod 256;
         Size m mod 256; Size m / 2 ^ 8 mod 256; Size m / 2 ^ 16 mod 256;
         Size m / 2 ^ 24 mod 256;
         Written m; Image m; Purpose m; Reserved m ]
  /\ binary_Read (binary_Write m) = Some m.
Proof.
  intros (Hc & Hs & Hw & Hi & Hp & Hr). destruct m as [c s w i p r].
  cbn [CRC Size Written Image Purpose Reserved] in *.
  assert (Hshape : binary_Write (mkMetaData c s w i p r)
     = [ c mod 256; c / 2 ^ 8 mod 256; c / 2 ^ 16 mod 256;
         c / 2 ^ 24 mod 256;
         s mod 256; s / 2 ^ 8 mod 256; s / 2 ^ 16 mod 256;
         s / 2 ^ 24 mod 256; w; i; p; r ]).
  { unfold binary_Write, PutUint32, Int.byte.
    cbn [CRC Size Written Image Purpose Reserved app].
    rewrite !Z.shiftr_div_pow2 by lia.
    now rewrite (Z.mod_small w), (Z.mod_small i), (Z.mod_small p),
      (Z.mod_small r) by lia. }
  split; [reflexivity|]. split; [|split; [exact Hshape|]].
  - rewrite Hshape.
    repeat (constructor; [first [assumption | apply Z.mod_pos_bound; lia]|]).
    constructor.
  - unfold binary_Write, binary_Read, PutUint32.
    cbn [CRC Size Written Image Purpose Reserved app].
    rewrite !Uint32_PutUint32 by assumption. unfold Int.byte.
    now rewrite (Z.mod_small w), (Z.mod_small i), (Z.mod_small p),
      (Z.mod_small r) by lia.
Qed.

(** ** The region catalog and the integrity validator *)

(** What holds of every entry of [sections]. *)
Definition Sect_ok (sec : Sect) : Prop :=
  0 <= base sec /\ base sec < limit sec /\ limit sec <= romSize
  /\ 0 <= meta sec /\ meta sec mod 4096 = 0 /\ meta sec + 4096 <= romSize.

Lemma secByName_ok (nm : string) (sec : Sect) :
  secByName nm = Ok sec -> Sect_ok sec /\ name sec = nm /\ In sec sections.
Proof.
  unfold secByName. destruct (find _ sections) as [s|] eqn:Hf; [|discriminate].
  intros [= ->]. apply find_some in Hf. destruct Hf as [Hin Hn].
  apply String.eqb_eq in Hn. split; [|split; assumption].
  unfold sections in Hin. simpl in Hin.
  repeat (destruct Hin as [<- | Hin];
          [unfold Sect_ok, romSize; simpl; repeat split; lia |]).
  contradiction.
Qed.

Lemma binary_Read_bytes (m : list Z) :
  len m = 12 -> Forall (fun b => 0 <= b < 256) m ->
  exists md, binary_Read m = Some md /\ MetaData_ok md.
Proof.
  intros Hlen Hb.
  do 12 (destruct m as [|? m];
         [exfalso; unfold len in Hlen; simpl length in Hlen; lia|]).
  repeat match goal with
         | H : Forall _ (_ :: _) |- _ => inversion H; clear H; subst
         end.
  eexists. split; [reflexivity|].
  unfold MetaData_ok. cbn [CRC Size Written Image Purpose Reserved].
  rewrite !Uint32_value by assumption. repeat split; lia.
Qed.

Section Validator.

Context {E : Env}.

(** C5. [validate] of a name of the catalog first reads the twelve bytes
    of the metadata record at the metadata offset of the section (a
    failure of that read ends the process).  If the size in the record
    exceeds [limit - base], it returns the invalid-size error and has
    made no further exchange with the device.  Otherwise it reads
    exactly that many bytes from [base], returns a read error if that
    fails, and else compares the CRC of the bytes read with the CRC of
    the record: success when they are equal, and otherwise the mismatch
    error that carries the computed and the stored value. *)
Theorem validate_spec (nm : string) (sec : Sect) (t : T) :
  secByName nm = Ok sec ->
  let '(t1, e1, r1) := Read (meta sec) 12 t in
  (exists s, run rstep (Some (plan (meta sec) 12, [])) e1 = Some s)
  /\ match r1 with
     | Ok m =>
       exists md,
         binary_Read m = Some md
         /\ if Size md >? limit sec - base sec
            then validate nm t
                 = (t1, e1, Err (ErrInvalidSize (name sec) (Size md)
                                                (limit sec - base sec)))
            else
              let '(t2, e2, r2) := Read (base sec) (Size md) t1 in
              (exists s, run rstep (Some (plan (base sec) (Size md), [])) e2
                         = Some s)
              /\ match r2 with
                 | Ok d =>
                   len d = Size md
                   /\ validate nm t
                      = (t2, e1 ++ e2,
                         if xcrc32_NewCRC32 d =? CRC md then Ok tt
                         else Err (ErrCrcMismatch (name sec)
                                     (xcrc32_NewCRC32 d) (CRC md)))
                 | Err e =>
                   validate nm t
                   = (t2, e1 ++ e2,
                      Err (ErrFailedRead (name sec) (Size md) e))
                 | Exit _ => False
                 end
     | Err e => validate nm t = (t1, e1, Exit (FatalReadMeta (name sec) e))
     | Exit _ => False
     end.
Proof.
  intros Hsec.
  destruct (secByName_ok nm sec Hsec) as ((Hb0 & Hbl & Hlr & Hm0 & Hma & Hmr) & _).
  unfold romSize in *.
  destruct (Read_rmon (meta sec) 12 ltac:(lia) ltac:(lia)
              ltac:(unfold romSize; lia) t) as (s & Hrun & Hpost).
  unfold validate, readMeta, bind, on_err, lift, binary_Size_MetaData.
  rewrite Hsec.
  destruct (Read (meta sec) 12 t) as [[t1 e1] r1].
  unfold events, result in Hrun, Hpost. simpl in Hrun, Hpost.
  split; [now exists s|].
  destruct r1 as [m|e|x]; [|reflexivity|exact Hpost].
  destruct Hpost as (_ & Hlen & Hbytes).
  destruct (binary_Read_bytes m Hlen Hbytes) as (md & Hmd & Hok).
  exists md. split; [exact Hmd|]. rewrite Hmd.
  destruct Hok as (_ & Hsz & _).
  rewrite (sub_small (limit sec) (base sec)) by (apply in_range_small; lia).
  unfold Int.uint32. rewrite (Z.mod_small (limit sec - base sec)) by lia.
  unfold ret, fail. cbn [app].
  destruct (Z.gtb_spec (Size md) (limit sec - base sec)) as [Hbig|Hfit];
    [now rewrite !app_nil_r|].
  rewrite (wrap_small (Size md)) by (apply in_range_small; lia).
  destruct (Read_rmon (base sec) (Size md) ltac:(lia) ltac:(lia)
              ltac:(unfold romSize; lia) t1) as (s2 & Hrun2 & Hpost2).
  destruct (Read (base sec) (Size md) t1) as [[t2 e2] r2].
  unfold events, result in Hrun2, Hpost2. simpl in Hrun2, Hpost2.
  split; [now exists s2|].
  destruct r2 as [d|e|x]; [|now rewrite !app_nil_r|exact Hpost2].
  destruct Hpost2 as (_ & Hlen2 & _). split; [exact Hlen2|].
  destruct (xcrc32_NewCRC32 d =? CRC md); now rewrite !app_nil_r.
Qed.

End Validator.

(** ** Write protection *)

(** The address [main] works on: the base of the section named by
    [--section], or [--addr]. *)
Definition target_base (fl : Flags) : Z :=
  if nonempty (sect fl) then
    match secByName (sect fl) with
    | Ok sec => base sec
    | _ => addrArg fl
    end
  else addrArg fl.

(** [a] lies in the metadata sector of the section named by [--section]. *)
Definition in_meta_sector (fl : Flags) (a : Z) : Prop :=
  exists sec, secByName (sect fl) = Ok sec
              /\ meta sec <= a < meta sec + 4096.

(** An erase or program command of a run of [main] is issued only when
    the address [main] works on is not below the boundary, and it goes to
    an address at or above the boundary or into the metadata sector. *)
Definition guarded (fl : Flags) (e : Event) : Prop :=
  forall a, write_target e = Some a ->
            protect fl <= target_base fl
            /\ (protect fl <= a \/ in_meta_sector fl a).

Definition no_write (e : Event) : Prop := write_target e = None.

Lemma read_exchange_no_write (e : Event) : read_exchange e -> no_write e.
Proof.
  intros [[a Ha] _]. unfold no_write, write_target, opcode. now rewrite Ha.
Qed.

Lemma single_no_write (c : Z) (e : Event) :
  c <> 0x20 -> c <> 0x02 -> ev_cmds e = [c] -> no_write e.
Proof.
  intros H1 H2 He. unfold no_write, write_target, opcode. rewrite He.
  cbn [nth].
  replace (c =? 32) with false by (symmetry; apply Z.eqb_neq; lia).
  replace (c =? 2) with false by (symmetry; apply Z.eqb_neq; lia).
  reflexivity.
Qed.

Section Protection.

Context {E : Env}.
Variable fl : Flags.

Lemma spi_single_no_write (c expect : Z) :
  0 <= expect -> c <> 0x20 -> c <> 0x02 -> emits no_write (spi [c] expect).
Proof.
  intros He H1 H2. apply emits_spi; [assumption|]. intros r _.
  now apply (single_no_write c).
Qed.

Lemma await_no_write (mask desired timeout : Z) :
  emits no_write (await fl mask desired timeout).
Proof.
  eapply emits_weaken; [|apply await_emits].
  intros e He. apply (single_no_write 0x05); [lia | lia | exact He].
Qed.

Lemma writeEnable_no_write : emits no_write writeEnable.
Proof.
  eapply emits_weaken; [|apply writeEnable_emits].
  intros e He. apply (single_no_write 0x06); [lia | lia | exact He].
Qed.

Lemma Read_no_write (address n : Z) : emits no_write (Read address n).
Proof.
  eapply emits_weaken; [exact read_exchange_no_write | apply Read_emits].
Qed.

Lemma reset_no_write : emits no_write (reset fl).
Proof.
  unfold reset. apply emits_bind.
  - destruct (reset_flag fl); [|apply emits_ret].
    apply emits_bind; [|intros _].
    + apply emits_on_err, emits_bind; [|intros; apply emits_ret].
      apply spi_single_no_write; lia.
    + apply emits_on_err, emits_bind; [|intros; apply emits_ret].
      apply spi_single_no_write; lia.
  - intros _. apply emits_bind; [apply spi_single_no_write; lia|].
    intros _. apply emits_bind; [apply spi_single_no_write; lia|].
    intros b. destruct (negb _); [apply emits_fail|].
    destruct (_ || _); [apply emits_fail|].
    apply emits_bind; [apply emits_on_err, await_no_write|].
    intros _. apply emits_bind; [|intros; apply emits_ret].
    apply emits_on_err, emits_bind; [apply Read_no_write|].
    intros; apply emits_ret.
Qed.

Lemma readMeta_no_write (sec : Sect) : emits no_write (readMeta sec).
Proof.
  unfold readMeta. apply emits_bind.
  - apply emits_on_err, Read_no_write.
  - intros m. destruct (binary_Read m); [apply emits_ret | apply emits_fatal].
Qed.

Lemma displayLayout_no_write : emits no_write displayLayout.
Proof.
  unfold displayLayout. induction sections as [|sec l IH]; simpl.
  - apply emits_ret.
  - apply emits_bind; [apply readMeta_no_write | intros _; exact IH].
Qed.

Lemma validate_no_write (nm : string) : emits no_write (validate nm).
Proof.
  unfold validate. apply emits_bind; [apply emits_lift|]. intros sec.
  apply emits_bind; [apply readMeta_no_write|]. intros mt. cbv zeta.
  destruct (_ >? _); [apply emits_fail|].
  apply emits_bind; [apply emits_on_err, Read_no_write|]. intros d.
  destruct (_ =? _); [apply emits_ret | apply emits_fail].
Qed.

(** The erase and program commands of the loop of [Write] go to
    addresses of the range still to be written. *)
Lemma Write_loop_targets (fuel : nat) :
  forall (address offset n : Z) (data : list Z),
    0 <= address -> 0 <= n -> address + n <= romSize ->
    emits (fun e => forall a, write_target e = Some a ->
                              address <= a < address + n)
          (Write_loop fl fuel address offset n data).
Proof.
  unfold romSize.
  induction fuel as [|fuel IH]; intros address offset n data Ha Hn Hr.
  - simpl. destruct (n >? 0); [apply emits_fail | apply emits_ret].
  - rewrite Write_loop_unfold. destruct (Z.gtb_spec n 0) as [Hpos|Hle];
      [|apply emits_ret].
    cbv zeta.
    set (delta := if n >? 8 then 8 else n).
    assert (Hd : 1 <= delta <= n) by (unfold delta; destruct (Z.gtb_spec n 8); lia).
    rewrite (add_small address), sub_small by (apply in_range_small; lia).
    assert (Hnone : forall e, no_write e ->
              forall a, write_target e = Some a -> address <= a < address + n).
    { intros e He a Hw. unfold no_write in He. congruence. }
    assert (Hhere : forall op rest r, (op =? 0x20) || (op =? 0x02) = true ->
              forall a, write_target (mkEvent (op :: addr_bytes address ++ rest) 0 r)
                        = Some a -> address <= a < address + n).
    { intros op rest r Hop a. unfold write_target, opcode. cbn [ev_cmds nth].
      rewrite Hop, cmd_addr_bytes by lia. intros [= <-]. lia. }
    apply emits_bind.
    + destruct (Z.land address 4095 =? 0); [|apply emits_ret].
      apply emits_bind;
        [eapply emits_weaken; [exact Hnone|];
         apply emits_on_err, writeEnable_no_write|].
      intros _. apply emits_bind.
      * apply emits_on_err, emits_bind; [|intros; apply emits_ret].
        apply emits_spi; [lia|]. intros r _.
        assert (H20 := Hhere 0x20 [] (reply_of r) eq_refl).
        now rewrite app_nil_r in H20.
      * intros _. eapply emits_weaken; [exact Hnone|].
        apply emits_on_err, await_no_write.
    + intros _. apply emits_bind;
        [eapply emits_weaken; [exact Hnone|];
         apply emits_on_err, writeEnable_no_write|].
      intros _. apply emits_bind.
      * apply emits_spi; [lia|]. intros r _.
        exact (Hhere 0x02 _ (reply_of r) eq_refl).
      * intros _. apply emits_bind;
          [eapply emits_weaken; [exact Hnone|];
           apply emits_on_err, await_no_write|].
        intros _. eapply emits_weaken; [|apply IH; lia].
        cbv beta. intros e He a Hw. specialize (He a Hw). lia.
Qed.

Lemma Write_targets (address : Z) (data : list Z) :
  address <= romSize -> len data <= 2 ^ 60 ->
  emits (fun e => forall a, write_target e = Some a ->
                            address <= a < address + len (padded data))
        (Write fl address data).
Proof.
  intros Ha Hl. unfold Write. unfold romSize in *.
  destruct (Z.land address 4095 =? 0); simpl negb; cbv iota;
    [|apply emits_fail].
  assert (H0 := len_nonneg data). cbv zeta.
  rewrite pad_data_spec by (unfold Int.max_int; lia). fold (padded data).
  assert (Hp := len_padded data). destruct (fill_len_bounds data) as [Hf _].
  destruct (Z.ltb_spec address 0) as [Hneg|Hpos]; simpl orb;
    [apply emits_fail|].
  rewrite add_small by (apply in_range_small; lia).
  destruct (_ >? _) eqn:Hgt; [apply emits_fail|].
  rewrite Z.gtb_ltb in Hgt. apply Z.ltb_ge in Hgt.
  apply Write_loop_targets; unfold romSize; lia.
Qed.

Lemma writeMeta_targets (sec : Sect) (m : MetaData) :
  Sect_ok sec ->
  emits (fun e => forall a, write_target e = Some a ->
                            meta sec <= a < meta sec + 4096)
        (writeMeta fl sec m).
Proof.
  intros (_ & _ & _ & Hm0 & _ & Hmr). unfold writeMeta. cbv zeta.
  change (len (binary_Write m)) with 12. simpl negb. cbv iota.
  apply emits_on_err.
  assert (H := Write_targets (meta sec) (binary_Write m)).
  change (len (padded (binary_Write m))) with 4096 in H.
  apply H; unfold romSize in *; [lia | change (len (binary_Write m)) with 12; lia].
Qed.

(** Every exchange of [m] satisfies [P] and every value it returns
    satisfies [R]. *)
Definition yields {A : Type} (P : Event -> Prop) (R : A -> Prop) (m : M A)
  : Prop :=
  forall t, Forall P (events (m t))
            /\ forall a, result (m t) = Ok a -> R a.

Lemma yields_emits {A : Type} (P : Event -> Prop) (R : A -> Prop) (m : M A) :
  yields P R m -> emits P m.
Proof. intros H t. apply H. Qed.

Lemma emits_yields {A : Type} (P : Event -> Prop) (m : M A) :
  emits P m -> yields P (fun _ => True) m.
Proof. intros H t. split; [apply H | trivial]. Qed.

Lemma yields_lift {A : Type} (P : Event -> Prop) (R : A -> Prop) (r : res A) :
  (forall a, r = Ok a -> R a) -> yields P R (lift r).
Proof. intros H t. split; [constructor | exact H]. Qed.

Lemma yields_bind {A B : Type} (P : Event -> Prop) (R1 : A -> Prop)
  (R : B -> Prop) (m : M A) (f : A -> M B) :
  yields P R1 m -> (forall a, R1 a -> yields P R (f a)) ->
  yields P R (bind m f).
Proof.
  intros Hm Hf t. unfold bind. destruct (Hm t) as [He Hr].
  destruct (m t) as [[t1 e1] r]. unfold events, result in *. simpl in *.
  destruct r as [a|e|x]; try (split; [assumption | discriminate]).
  destruct (Hf a (Hr a eq_refl) t1) as [He2 Hr2].
  destruct (f a t1) as [[t2 e2] r2]. simpl in *.
  split; [apply Forall_app; split; assumption | exact Hr2].
Qed.

(** The file [--write] names fits the memory of the machine by far. *)
Definition file_fits : Prop :=
  forall d, ioutil_ReadFile (wr fl) = Some d -> len d <= 2 ^ 60.

Lemma no_write_guarded (e : Event) : no_write e -> guarded fl e.
Proof. intros He a Ha. unfold no_write in He. congruence. Qed.

Lemma main_read_guarded (addr lim : Z) : emits (guarded fl) (main_read fl addr lim).
Proof.
  eapply emits_weaken; [exact no_write_guarded|].
  unfold main_read. apply emits_bind.
  - destruct (nonempty (sect fl)); [|apply emits_ret].
    apply emits_bind; [apply emits_lift|]. intros sec.
    apply emits_bind; [apply readMeta_no_write|]. intros; apply emits_ret.
  - intros lim'. apply emits_bind; [apply emits_on_err, Read_no_write|].
    intros d. apply emits_bind; [|intros; apply emits_fatal].
    destruct (negb _); [|apply emits_ret].
    destruct (ioutil_WriteFile _ _); [apply emits_ret | apply emits_fatal].
Qed.

Lemma main_write_guarded (addr lim mt : Z) :
  file_fits -> addr = target_base fl -> addr <= romSize ->
  emits (guarded fl) (main_write fl addr lim mt).
Proof.
  intros Hfile Hbase Haddr. unfold main_write.
  destruct (ioutil_ReadFile (wr fl)) as [d|] eqn:Hd; [|apply emits_fatal].
  specialize (Hfile d Hd).
  destruct (Z.gtb_spec (skip fl) (len d)) as [|Hskip]; [apply emits_fatal|].
  eapply yields_emits.
  eapply yields_bind with (R1 := fun d' : list Z => len d' <= 2 ^ 60).
  { destruct (negb (skip fl =? 0)).
    - destruct (Z.ltb_spec (skip fl) 0) as [|Hs0].
      + apply (yields_lift _ _ (Exit GoPanic)). discriminate.
      + apply (yields_lift _ _ (Ok (slice d (skip fl) (len d)))).
        intros a [= <-]. rewrite slice_len by lia. lia.
    - apply (yields_lift _ _ (Ok d)). now intros a [= <-]. }
  intros d' Hd'. apply (emits_yields _ (A := unit)).
  destruct (_ >? lim); [apply emits_fatal|].
  destruct (Z.ltb_spec addr (protect fl)) as [|Hprot]; [apply emits_fatal|].
  apply emits_bind.
  - apply emits_on_err. eapply emits_weaken; [|apply Write_targets; assumption].
    cbv beta. intros e He a Ha. specialize (He a Ha).
    split; [lia|]. left. lia.
  - intros _. destruct (negb (mt =? 0)); [|apply emits_ret].
    eapply yields_emits.
    eapply yields_bind with
      (R1 := fun sec => secByName (sect fl) = Ok sec).
    + apply yields_lift. auto.
    + intros sec Hsec. apply (emits_yields _ (A := unit)).
      destruct (secByName_ok _ _ Hsec) as (Hok & _).
      eapply emits_weaken; [|apply writeMeta_targets; exact Hok].
      cbv beta. intros e He a Ha. specialize (He a Ha).
      split; [lia|]. right. exists sec. split; assumption.
Qed.

Lemma main_rw_guarded : file_fits -> emits (guarded fl) (main_rw fl).
Proof.
  intros Hfile. unfold main_rw. cbv zeta.
  eapply yields_emits.
  eapply yields_bind with
    (R1 := fun r : option (Z * Z * Z) =>
             match r with
             | None => True
             | Some (addr, _, _) => addr = target_base fl
             end).
  - unfold target_base. destruct (nonempty (sect fl)).
    + destruct (secByName (sect fl)) as [sec|e|x] eqn:Hsec.
      * eapply yields_bind with (R1 := fun s => s = sec).
        { apply yields_lift. now intros a [= <-]. }
        intros ? ->. destruct (disable fl).
        -- destruct (Z.gtb_spec (protect fl) (base sec)) as [|Hprot].
           ++ apply (yields_lift _ _ (Exit FatalProtectedSection)). discriminate.
           ++ eapply yields_bind with (R1 := fun _ => True).
              ** apply emits_yields.
                 destruct (secByName_ok _ _ Hsec) as (Hok & _).
                 eapply emits_weaken; [|apply writeMeta_targets; exact Hok].
                 cbv beta. intros e He a Ha. specialize (He a Ha).
                 unfold target_base.
                 split.
                 { destruct (nonempty (sect fl)) eqn:Hne.
                   - rewrite Hsec. lia.
                   - unfold nonempty in Hne. apply negb_false_iff in Hne.
                     apply String.eqb_eq in Hne. rewrite Hne in Hsec.
                     discriminate Hsec. }
                 right. exists sec. split; assumption.
              ** intros _ _. apply (yields_lift _ _ (Ok None)). now intros a [= <-].
        -- apply (yields_lift _ _ (Ok (Some (base sec, limit sec, meta sec)))).
           now intros a [= <-].
      * eapply yields_bind with (R1 := fun _ => False).
        { apply yields_lift. discriminate. }
        intros a [].
      * eapply yields_bind with (R1 := fun _ => False).
        { apply yields_lift. discriminate. }
        intros a [].
    + apply (yields_lift _ _ (Ok (Some (addrArg fl, limitArg fl, 0)))).
      now intros a [= <-].
  - intros [[[addr lim] mt]|] Hr; apply (emits_yields _ (A := unit));
      [|apply emits_ret].
    destruct (Z.geb_spec addr lim) as [|Hlt]; [apply emits_fatal|].
    destruct (Z.gtb_spec lim romSize) as [|Hrom]; [apply emits_fatal|].
    destruct (nonempty (rd fl)); [apply main_read_guarded|].
    destruct (nonempty (wr fl)); [|apply emits_ret].
    apply main_write_guarded; [assumption | assumption | lia].
Qed.

(** C3, as the code has it.  In every run of [main] (on a file that fits
    the memory), an erase or program command is issued only if the
    address [main] works on - the base of the section named by
    [--section], or [--addr] - is not below the protect boundary; such a
    command goes to an address at or above the boundary, or into the
    metadata sector of the section, which is written without a check of
    its own. *)
Theorem main_protection :
  file_fits -> Forall (guarded fl) (snd (fst (main fl))).
Proof.
  intros Hfile. unfold main, NewQF.
  destruct (term_Open (tty fl)) as [t|]; [|constructor].
  assert (H0 := reset_no_write t).
  destruct (reset fl t) as [[t1 ev0] r0]. unfold events in H0. simpl in H0.
  apply (Forall_impl _ no_write_guarded) in H0.
  destruct r0 as [[]|e|x]; try exact H0.
  assert (H1 : Forall (guarded fl) (events (main_session fl t1))).
  { unfold main_session. destruct (layout fl).
    - eapply emits_weaken; [exact no_write_guarded | apply displayLayout_no_write].
    - destruct (check fl).
      + destruct (negb _); [apply emits_fatal|].
        apply emits_on_err. eapply emits_weaken;
          [exact no_write_guarded | apply validate_no_write].
      + apply main_rw_guarded. exact Hfile. }
  destruct (main_session fl t1) as [[t2 ev1] r1]. unfold events in H1.
  simpl in H1.
  destruct r1; simpl; apply Forall_app; split; assumption.
Qed.

End Protection.

(** * Runs on the simulated board *)

(** An erased board of the supported chip, and the tool's view of it with
    a three-byte file to write. *)
Definition blank_board : Sim := sim_board good_id 0 [].
Definition demo_env : Env := SimEnv blank_board [1; 2; 3].

(** The port of the erased board, as the tool holds it. *)
Definition demo_board : T (Env := demo_env) := blank_board.

(** [qftool --section=app --write=image.bin], other flags at their
    defaults. *)
Definition app_write_flags : Flags :=
  mkFlags "/dev/serial/by-id/usb-1d50_6140-if00" (1 * second) "" "image.bin"
          0x40000 0 false true false false false false "app" 0x80000 romSize.

Definition app_sect : Sect :=
  mkSect "app" 0x80000 0xee000 0x13000 0 TypeM4 SubTypeApp.

Definition or_else {A : Type} (o : option A) (d : A) : A :=
  match o with
  | Some a => a
  | None => d
  end.

(** The board after that run. *)
Definition written_board : T (Env := demo_env) :=
  or_else (fst (fst (main (E := demo_env) app_write_flags))) demo_board.

(** Opening a session: the supported chip is accepted, another ID is
    refused. *)
Example open_supported_chip :
  snd (NewQF (E := demo_env) default_flags "tty") = Ok tt.
Proof. vm_compute. reflexivity. Qed.

Example open_other_chip :
  snd (NewQF (E := SimEnv (sim_board [0xC8; 0x41; 0x15] 0 []) [])
             default_flags "tty")
  = Err (ErrDID 0x41 0x15).
Proof. vm_compute. reflexivity. Qed.

(** Writing the file to the "app" section, then reading the section back
    and checking it: how [main] ended, the three bytes read at the base,
    the metadata record, and the verdict of [validate]. *)
Definition write_scenario
  : res unit * res (list Z) * res MetaData * res unit :=
  let run := main (E := demo_env) app_write_flags in
  let t := or_else (fst (fst run)) demo_board in
  (snd run,
   result (Read (E := demo_env) 0x80000 3 t),
   result (readMeta (E := demo_env) app_sect t),
   result (validate (E := demo_env) "app" t)).

Example write_then_read_back :
  write_scenario
  = (Ok tt, Ok [1; 2; 3],
     Ok (mkMetaData (sim_crc [1; 2; 3]) 3 PresentWritten TypeM4 SubTypeApp 0xff),
     Ok tt).
Proof. vm_compute. reflexivity. Qed.

(** A read across a 16-byte boundary is split at the boundary. *)
Example read_is_split :
  map (fun e => (ev_cmds e, ev_expect e))
      (events (Read (E := demo_env) 14 5 demo_board))
  = [([0x0B; 0; 0; 14; 0], 2); ([0x0B; 0; 0; 16; 0], 3)].
Proof. vm_compute. reflexivity. Qed.

(** One byte written over a board full of zeros: the sector is erased,
    the byte is programmed at its start, the rest of the sector reads
    [0xFF], and the neighbouring sectors keep their zeros. *)
Definition zero_board : T (Env := demo_env) :=
  sim_board good_id 0 (repeat 0 (Z.to_nat 12288)).

Example one_byte_on_the_board :
  (let run := Write (E := demo_env) default_flags 4096 [7] zero_board in
   (result run,
    map (sim_mem (final run)) [4095; 4096; 4097; 6000; 8191; 8192]))
  = (Ok tt, [0; 7; 0xff; 0xff; 0xff; 0]).
Proof. vm_compute. reflexivity. Qed.

(** The monitors refuse what the claims forbid: a page program in a
    sector that was not erased first, a page program of nine bytes, and a
    read request that is larger than its piece of the plan. *)
Example program_without_erase_refused :
  run wstep (mkW WReady 4096 [])
      [ mkEvent [0x06] 0 (Some []);
        mkEvent [0x02; 0; 0x10; 0; 7] 0 (Some []) ]
  = None.
Proof. reflexivity. Qed.

Example program_of_nine_bytes_refused :
  run wstep (mkW WProgEnabled 4096 [])
      [ mkEvent [0x02; 0; 0x10; 0; 1; 2; 3; 4; 5; 6; 7; 8; 9] 0 (Some []) ]
  = None.
Proof. reflexivity. Qed.

Example read_across_window_refused :
  run rstep (Some (plan 14 5, []))
      [ mkEvent [0x0B; 0; 0; 14; 0] 5 (Some [1; 2; 3; 4; 5]) ]
  = None.
Proof. reflexivity. Qed.

(** ** The theorems at concrete inputs *)

Lemma Write_command_order_witness :
  (Z.land 4096 0xfff = 0 /\ 0 <= 4096 /\ 4096 + len [7; 8; 9] <= romSize)
  /\ exists s,
      run wstep (mkW WReady 4096 [])
          (events (Write (E := demo_env) default_flags 4096 [7; 8; 9] demo_board))
      = Some s
      /\ 4096 <= w_next s <= 4096 + len [7; 8; 9] + fill_len [7; 8; 9]
      /\ outcome (result (Write (E := demo_env) default_flags 4096 [7; 8; 9]
                                demo_board))
                 (fun _ => w_phase s = WReady
                           /\ w_next s = 4096 + len [7; 8; 9]
                                          + fill_len [7; 8; 9])
                 (fun e => w_phase s <> WReady /\ device_error e = true).
Proof.
  assert (H1 : Z.land 4096 0xfff = 0) by reflexivity.
  assert (H2 : 0 <= 4096) by lia.
  assert (H3 : 4096 + len [7; 8; 9] <= romSize) by (vm_compute; discriminate).
  split; [repeat split; assumption|].
  exact (Write_command_order (E := demo_env) default_flags 4096 [7; 8; 9]
                             demo_board H1 H2 H3).
Defined.

Lemma Read_chunks_witness :
  (0 <= 14 /\ 0 <= 5 /\ 14 + 5 <= romSize)
  /\ (exists s,
         run rstep (Some (plan 14 5, []))
             (events (Read (E := demo_env) 14 5 demo_board)) = Some s
         /\ match result (Read (E := demo_env) 14 5 demo_board) with
            | Ok d => s = Some ([], d) /\ len d = 5
                      /\ Forall (fun b => 0 <= b < 256) d
            | Err e => s = None /\ device_error e = true
            | Exit _ => False
            end)
  /\ Forall in_window (plan 14 5)
  /\ contiguous 14 (plan 14 5) (14 + 5).
Proof.
  assert (H1 : 0 <= 14) by lia.
  assert (H2 : 0 <= 5) by lia.
  assert (H3 : 14 + 5 <= romSize) by (vm_compute; discriminate).
  split; [repeat split; assumption|].
  exact (Read_chunks (E := demo_env) 14 5 demo_board H1 H2 H3).
Defined.

Lemma demo_file_fits : file_fits (E := demo_env) app_write_flags.
Proof. intros d [= <-]. vm_compute. discriminate. Qed.

Lemma main_protection_witness :
  file_fits (E := demo_env) app_write_flags
  /\ Forall (guarded app_write_flags)
            (snd (fst (main (E := demo_env) app_write_flags))).
Proof.
  split; [exact demo_file_fits|].
  exact (main_protection (E := demo_env) app_write_flags demo_file_fits).
Defined.

(** How a run of [main] ended, and the first address below the boundary
    that one of its erase or program commands went to. *)
Definition first_below (fl : Flags) {E : Env}
  (run : option T * list Event * res unit) : res unit * option Z :=
  (snd run, find (fun a => a <? protect fl) (write_targets (snd (fst run)))).

(** C3 as the claim states it fails: with the default boundary 0x40000,
    writing the "app" section succeeds, and the run erases and programs
    the metadata sector at 0x13000, below the boundary. *)
Lemma main_writes_below_boundary :
  protect app_write_flags = 0x40000
  /\ first_below app_write_flags (main (E := demo_env) app_write_flags)
     = (Ok tt, Some 0x13000).
Proof. split; [reflexivity|]. vm_compute. reflexivity. Qed.

Lemma metadata_round_trip_witness :
  MetaData_ok (mkMetaData 0xFFFFFFFF 0 0x00 0xFF 0x00 0xFF)
  /\ len (binary_Write (mkMetaData 0xFFFFFFFF 0 0x00 0xFF 0x00 0xFF)) = 12
  /\ Forall (fun b => 0 <= b < 256)
            (binary_Write (mkMetaData 0xFFFFFFFF 0 0x00 0xFF 0x00 0xFF))
  /\ binary_Write (mkMetaData 0xFFFFFFFF 0 0x00 0xFF 0x00 0xFF)
     = [ 0xFFFFFFFF mod 256; 0xFFFFFFFF / 2 ^ 8 mod 256;
         0xFFFFFFFF / 2 ^ 16 mod 256; 0xFFFFFFFF / 2 ^ 24 mod 256;
         0 mod 256; 0 / 2 ^ 8 mod 256; 0 / 2 ^ 16 mod 256;
         0 / 2 ^ 24 mod 256; 0x00; 0xFF; 0x00; 0xFF ]
  /\ binary_Read (binary_Write (mkMetaData 0xFFFFFFFF 0 0x00 0xFF 0x00 0xFF))
     = Some (mkMetaData 0xFFFFFFFF 0 0x00 0xFF 0x00 0xFF).
Proof.
  assert (H : MetaData_ok (mkMetaData 0xFFFFFFFF 0 0x00 0xFF 0x00 0xFF)).
  { unfold MetaData_ok. simpl. lia. }
  split; [exact H|].
  exact (metadata_round_trip (mkMetaData 0xFFFFFFFF 0 0x00 0xFF 0x00 0xFF) H).
Defined.

Lemma validate_spec_witness :
  secByName "app" = Ok app_sect
  /\ let '(t1, e1, r1) := Read (E := demo_env) (meta app_sect) 12 written_board in
     (exists s, run rstep (Some (plan (meta app_sect) 12, [])) e1 = Some s)
     /\ match r1 with
        | Ok m =>
          exists md,
            binary_Read m = Some md
            /\ if Size md >? limit app_sect - base app_sect
               then validate (E := demo_env) "app" written_board
                    = (t1, e1, Err (ErrInvalidSize (name app_sect) (Size md)
                                      (limit app_sect - base app_sect)))
               else
                 let '(t2, e2, r2) :=
                   Read (E := demo_env) (base app_sect) (Size md) t1 in
                 (exists s,
                     run rstep (Some (plan (base app_sect) (Size md), [])) e2
                     = Some s)
                 /\ match r2 with
                    | Ok d =>
                      len d = Size md
                      /\ validate (E := demo_env) "app" written_board
                         = (t2, e1 ++ e2,
                            if xcrc32_NewCRC32 (Env := demo_env) d =? CRC md
                            then Ok tt
                            else Err (ErrCrcMismatch (name app_sect)
                                        (xcrc32_NewCRC32 (Env := demo_env) d)
                                        (CRC md)))
                    | Err e =>
                      validate (E := demo_env) "app" written_board
                      = (t2, e1 ++ e2,
                         Err (ErrFailedRead (name app_sect) (Size md) e))
                    | Exit _ => False
                    end
        | Err e => validate (E := demo_env) "app" written_board
                   = (t1, e1, Exit (FatalReadMeta (name app_sect) e))
        | Exit _ => False
        end.
Proof.
  assert (H : secByName "app" = Ok app_sect) by reflexivity.
  split; [exact H|].
  exact (validate_spec (E := demo_env) "app" app_sect written_board H).
Defined.

Lemma Write_pads_with_ff_witness :
  (Z.land 4096 0xfff = 0 /\ 0 <= 4096 /\ 4096 + len [7] <= romSize)
  /\ pad_data [7] = [7] ++ repeat 0xff (Z.to_nat (fill_len [7]))
  /\ 0 <= fill_len [7] < 4096
  /\ (len [7] + fill_len [7]) mod 4096 = 0
  /\ (len [7] mod 4096 = 0 -> pad_data [7] = [7])
  /\ (exists k,
         programmed (events (Write (E := demo_env) default_flags 4096 [7]
                                   demo_board))
         = number_from 4096 (firstn k (padded [7])))
  /\ (result (Write (E := demo_env) default_flags 4096 [7] demo_board) = Ok tt ->
      programmed (events (Write (E := demo_env) default_flags 4096 [7]
                                demo_board))
      = number_from 4096 (padded [7]))
  /\ (forall b, [7] = [b] ->
      result (Write (E := demo_env) default_flags 4096 [7] demo_board) = Ok tt ->
      programmed (events (Write (E := demo_env) default_flags 4096 [7]
                                demo_board))
      = (4096, b) :: number_from (4096 + 1) (repeat 0xff 4095)).
Proof.
  assert (H1 : Z.land 4096 0xfff = 0) by reflexivity.
  assert (H2 : 0 <= 4096) by lia.
  assert (H3 : 4096 + len [7] <= romSize) by (vm_compute; discriminate).
  split; [repeat split; assumption|].
  exact (Write_pads_with_ff (E := demo_env) default_flags 4096 [7] demo_board
                            H1 H2 H3).
Defined.

Example Write_range_check_at_last_sector :
  (Z.land 0x1ff000 0xfff = 0 /\ 0 <= 0x1ff000
   /\ 0x1ff000 + len [1; 2; 3] + 4096 <= Int.max_int)
  /\ (result (Write (E := demo_env) default_flags 0x1ff000 [1; 2; 3] demo_board)
      = Err ErrWriteOutside
      <-> romSize < 0x1ff000 + len [1; 2; 3])
  /\ (romSize < 0x1ff000 + len [1; 2; 3] ->
      Write (E := demo_env) default_flags 0x1ff000 [1; 2; 3] demo_board
      = (demo_board, [], Err ErrWriteOutside)).
Proof.
  assert (H1 : Z.land 0x1ff000 0xfff = 0) by reflexivity.
  assert (H2 : 0 <= 0x1ff000) by lia.
  assert (H3 : 0x1ff000 + len [1; 2; 3] + 4096 <= Int.max_int)
    by (vm_compute; discriminate).
  split; [repeat split; assumption|].
  exact (Write_range_check (E := demo_env) default_flags 0x1ff000 [1; 2; 3]
                           demo_board H1 H2 H3).
Defined.

(** C7, where the code breaks it.  At the non-negative, sector-aligned
    address [2^63 - 4096] one byte of data ends far outside the device;
    the sum [address + n] the range check computes wraps around to a
    negative number, the check passes, and [Write] returns without error
    after a write-enable and a sector erase (address bytes [FF F0 00])
    and the programming that follows. *)
Lemma Write_range_check_overflow :
  Z.land (2 ^ 63 - 4096) 0xfff = 0
  /\ 0 <= 2 ^ 63 - 4096 <= Int.max_int
  /\ romSize < 2 ^ 63 - 4096 + len [0]
  /\ (let run := Write (E := demo_env) default_flags (2 ^ 63 - 4096) [0]
                       demo_board in
      (result run, map ev_cmds (firstn 2 (events run))))
     = (Ok tt, [[0x06]; [0x20; 0xFF; 0xF0; 0x00]]).
Proof. vm_compute. repeat split; try reflexivity; discriminate. Qed.

(** C8 as the claim states it fails: the read command has five bytes,
    not four. *)
Lemma Read_command_has_five_bytes :
  map (fun e => (ev_cmds e, len (ev_cmds e)))
      (events (Read (E := demo_env) 0x80000 1 demo_board))
  = [([0x0B; 0x08; 0x00; 0x00; 0x00], 5)].
Proof. vm_compute. reflexivity. Qed.

Lemma Write_empty_witness :
  (Z.land 0x80000 0xfff = 0 /\ 0 <= 0x80000 <= romSize)
  /\ Write (E := demo_env) default_flags 0x80000 [] demo_board
     = (demo_board, [], Ok tt).
Proof.
  assert (H1 : Z.land 0x80000 0xfff = 0) by reflexivity.
  assert (H2 : 0 <= 0x80000 <= romSize) by (vm_compute; split; discriminate).
  split; [split; assumption|].
  exact (Write_empty (E := demo_env) default_flags 0x80000 demo_board H1 H2).
Defined.

(** * Further properties of the code *)

(** ** The metadata codec, from the bytes *)

(** X1. [binary.Read] into a [MetaData] fails exactly on fewer than twelve
    bytes; it reads the first twelve and ignores the rest; what it
    decodes from bytes are values of the field types, and encoding the
    decoded record gives the twelve bytes back. *)
Theorem binary_Read_of_bytes (b : list Z) :
  (len b < 12 -> binary_Read b = None)
  /\ (12 <= len b ->
      exists md,
        binary_Read b = Some md
        /\ binary_Read (firstn 12 b) = Some md
        /\ (Forall (fun x => 0 <= x < 256) b ->
            MetaData_ok md /\ binary_Write md = firstn 12 b)).
Proof.
  split.
  - intros Hlen.
    do 12 (destruct b as [|? b]; [reflexivity|]).
    exfalso. unfold len in Hlen. simpl length in Hlen. lia.
  - intros Hlen.
    do 12 (destruct b as [|? b];
           [exfalso; unfold len in Hlen; simpl length in Hlen; lia|]).
    eexists. split; [reflexivity|]. split; [reflexivity|].
    intros Hb.
    repeat match goal with
           | H : Forall _ (_ :: _) |- _ => inversion H; clear H; subst
           end.
    split.
    + unfold MetaData_ok. cbn [CRC Size Written Image Purpose Reserved].
      rewrite !Uint32_value by assumption. repeat split; lia.
    + unfold binary_Write, PutUint32, Int.byte.
      cbn [CRC Size Written Image Purpose Reserved app firstn].
      rewrite !Uint32_value by assumption.
      rewrite !Z.shiftr_div_pow2 by lia.
      change (2 ^ 8) with 256. change (2 ^ 16) with 65536.
      change (2 ^ 24) with 16777216.
      repeat (apply f_equal2; [Z.to_euclidean_division_equations; lia|]).
      reflexivity.
Qed.
